(** * Contrast variance-inflation factors: a shallow embedding of
    [vif_contrasts.est_contrast_vifs]

    The Python function takes a pandas [DataFrame] (the design matrix) and an
    insertion-ordered [dict] of contrast expressions, and returns a [dict]
    from contrast name to VIF.

    Numbers.  A float64 cell is modelled by [val]: a finite number, a signed
    infinity, or NaN (which pandas also uses for a missing entry).  What
    IEEE-754 fixes for NaN, for the infinities and for a zero divisor is
    written out in [vadd], [vmul], [vdiv] and [vsqrt].  What an operation
    gives on finite operands (the rounded result, an infinity on overflow,
    zero on underflow) is left to [numerics], a parameter of the whole
    development: the statements of the general part hold for every
    arithmetic, binary64 among them.  Signed zeros are not distinguished.

    Exceptions.  A Python call either returns or raises; [result] keeps the
    two apart and [bind] threads the first exception through.

    External collaborators.  [nilearn.glm.expression_to_contrast_vector] is a
    parameter.  [numpy.linalg.inv] answers with a matrix of the order of its
    argument or raises [LinAlgError]; which of the two, and the entries, is
    the [fin_inv] field of [numerics] on a matrix of finite numbers, and a
    second parameter on a matrix that holds NaN or an infinity.

    The last part evaluates the statements on concrete design matrices with
    [ideal], the arithmetic without rounding. *)

From Stdlib Require Import String Reals Lra Lia List Bool Arith.
Import ListNotations.

Open Scope R_scope.

(** ** Scalars *)

Inductive val : Type :=
| Fin (x : R)
| Inf (neg : bool)
| NaN.

Definition Rltb (x y : R) : bool := if Rlt_dec x y then true else false.
Definition Reqb (x y : R) : bool := if Req_dec_T x y then true else false.

Definition val_eqb (a b : val) : bool :=
  match a, b with
  | Fin x, Fin y => Reqb x y
  | Inf s, Inf t => Bool.eqb s t
  | _, _ => false   (* NaN equals nothing, itself included *)
  end.

Definition isnull (a : val) : bool :=
  match a with NaN => true | _ => false end.

Definition is_finite (a : val) : bool :=
  match a with Fin _ => true | _ => false end.

(** The cells that a sum of squares of infinities and NaN can be. *)
Definition plus_inf_or_NaN (a : val) : Prop := a = Inf false \/ a = NaN.

(** The cells that a sum of products with zero can be. *)
Definition zero_or_NaN (a : val) : Prop := a = Fin 0 \/ a = NaN.

Definition vneg (a : val) : val :=
  match a with
  | Fin x => Fin (- x)
  | Inf s => Inf (negb s)
  | NaN => NaN
  end.

Definition to_R (a : val) : R :=
  match a with Fin x => x | _ => 0 end.

(** What the float64 operations and the inversion routine answer on finite
    numbers.  Each answer is a cell, so that rounding, overflow and underflow
    are all allowed for.  [fin_div] is asked for a divisor other than zero
    only, [fin_sqrt] and [fin_pow_half] for an argument that is not negative
    only.  [fin_inv] is [None] when the routine reports a singular matrix,
    and the entries of the inverse otherwise. *)
Record numerics : Type := mkNumerics {
  fin_add : R -> R -> val;
  fin_mul : R -> R -> val;
  fin_div : R -> R -> val;
  fin_sqrt : R -> val;
  fin_pow_half : R -> val;
  fin_inv : list (list R) -> option (nat -> nat -> val)
}.

(** ** Exceptions *)

Inductive exn : Type :=
| LinAlgError     (* numpy.linalg.LinAlgError *)
| ValueError.     (* shape mismatch in [@], or a failing contrast expression *)

Inductive result (A : Type) : Type :=
| OK (a : A)
| Raise (e : exn).
Arguments OK {A} a.
Arguments Raise {A} e.

Definition bind {A B : Type} (m : result A) (k : A -> result B) : result B :=
  match m with
  | OK a => k a
  | Raise e => Raise e
  end.

Notation "x <- m ;; k" := (bind m (fun x => k))
  (at level 61, m at next level, right associativity).

(** Splits an equation between results, lists and finite cells into the
    equations between the reals they hold. *)
Ltac cells :=
  repeat match goal with
         | |- OK _ = OK _ => f_equal
         | |- (_ :: _) = (_ :: _) => f_equal
         | |- (_, _) = (_, _) => f_equal
         | |- Fin _ = Fin _ => f_equal
         end.

Section Float64.

Variable nu : numerics.

Definition vadd (a b : val) : val :=
  match a, b with
  | Fin x, Fin y => fin_add nu x y
  | Fin _, Inf s => Inf s
  | Inf s, Fin _ => Inf s
  | Inf s, Inf t => if Bool.eqb s t then Inf s else NaN
  | _, _ => NaN
  end.

Definition vsub (a b : val) : val := vadd a (vneg b).

Definition vmul (a b : val) : val :=
  match a, b with
  | Fin x, Fin y => fin_mul nu x y
  | Fin x, Inf s => if Reqb x 0 then NaN else Inf (xorb s (Rltb x 0))
  | Inf s, Fin y => if Reqb y 0 then NaN else Inf (xorb s (Rltb y 0))
  | Inf s, Inf t => Inf (xorb s t)
  | _, _ => NaN
  end.

Definition vdiv (a b : val) : val :=
  match a, b with
  | Fin x, Fin y =>
      if Reqb y 0
      then (if Reqb x 0 then NaN else Inf (Rltb x 0))
      else fin_div nu x y
  | Fin _, Inf _ => Fin 0
  | Inf s, Fin y => Inf (xorb s (Rltb y 0))
  | _, _ => NaN
  end.

Definition vsqrt (a : val) : val :=
  match a with
  | Fin x => if Rltb x 0 then NaN else fin_sqrt nu x
  | Inf false => Inf false
  | _ => NaN
  end.

(** [sum] of a sequence of cells, no entry skipped: the entries are added
    one after the other to a running total that starts at zero.  (In which
    order pandas and BLAS add is theirs; with [numerics] a parameter no
    statement of the general part depends on it.) *)
Definition vsum (l : list val) : val := fold_left vadd l (Fin 0).

(** ** The pandas operations the function calls

    A [DataFrame] is held column-major: its row count ([shape[0]]) and its
    named columns in order.  [wf] is the invariant pandas maintains: every
    column has one cell per row. *)

Definition column : Type := (string * list val)%type.

Record DataFrame : Type := mkDF {
  nrows : nat;
  columns : list column
}.

Definition wf (df : DataFrame) : Prop :=
  Forall (fun c : column => length (snd c) = nrows df) (columns df).

Definition column_names (df : DataFrame) : list string := map fst (columns df).

(** [Series.dropna] *)
Definition dropna (col : list val) : list val :=
  filter (fun a => negb (isnull a)) col.

(** first occurrences of the distinct values, as [Series.unique] *)
Fixpoint unique (l : list val) : list val :=
  match l with
  | [] => []
  | a :: t => if existsb (val_eqb a) t then unique t else a :: unique t
  end.

(** [Series.nunique()], default [dropna=True]: missing entries do not count *)
Definition nunique (col : list val) : nat := length (unique (dropna col)).

(** [Series.isnull().any()] *)
Definition isnull_any (col : list val) : bool := existsb isnull col.

(** [Series.mean()], default [skipna=True] *)
Definition mean (col : list val) : val :=
  let xs := dropna col in
  vdiv (vsum xs) (Fin (INR (length xs))).

(** [Series.std()], defaults [skipna=True], [ddof=1]: the two-pass sample
    standard deviation over the non-missing entries, NaN when fewer than two
    of them exist. *)
Definition std (col : list val) : val :=
  let xs := dropna col in
  let count := length xs in
  if (count <=? 1)%nat then NaN
  else
    let avg := vdiv (vsum xs) (Fin (INR count)) in
    let sqr := map (fun x => let t := vsub avg x in vmul t t) xs in
    vsqrt (vdiv (vsum sqr) (Fin (INR (count - 1)))).

(** The words of the retention rule, independent of how pandas counts. *)
Definition has_missing (col : list val) : Prop := In NaN col.

Definition more_than_one_distinct (col : list val) : Prop :=
  exists x y, In x col /\ In y col /\ x <> NaN /\ y <> NaN /\ x <> y.

(** The column mask of line 20 of the source:
    [(desmat_copy.nunique() > 1) | (desmat_copy.isnull().any())] *)
Definition keep_mask (col : list val) : bool :=
  (1 <? nunique col)%nat || isnull_any col.

(** [desmat_copy.loc[:, mask]] *)
Definition loc_columns (df : DataFrame) : DataFrame :=
  mkDF (nrows df) (filter (fun c : column => keep_mask (snd c)) (columns df)).

(** [(nsamp - 1) ** 0.5].  For [nsamp = 0] Python answers a complex number;
    the model answers NaN there, and [no_rows_no_columns] below shows that no
    cell is ever divided by it in that case. *)
Definition sqrt_nsamp_minus_1 (nsamp : nat) : val :=
  if Rltb (INR nsamp - 1) 0 then NaN else fin_pow_half nu (INR nsamp - 1).

(** One column of
    [(desmat_copy - desmat_copy.mean()) / ((nsamp - 1) ** 0.5 * desmat_copy.std())] *)
Definition scale_column (nsamp : nat) (col : list val) : list val :=
  let m := mean col in
  let divisor := vmul (sqrt_nsamp_minus_1 nsamp) (std col) in
  map (fun x => vdiv (vsub x m) divisor) col.

Definition scale (df : DataFrame) : DataFrame :=
  let nsamp := nrows df in
  mkDF (nrows df)
       (map (fun c : column => (fst c, scale_column nsamp (snd c))) (columns df)).

(** The value of [desmat_copy] when the loop starts (lines 17 to 26). *)
Definition desmat_copy (desmat : DataFrame) : DataFrame :=
  scale (loc_columns desmat).


(** [DataFrame.insert(k, name, col)] *)
Definition insert_column (k : nat) (c : column) (df : DataFrame) : DataFrame :=
  mkDF (nrows df) (firstn k (columns df) ++ c :: skipn k (columns df)).

(** ** Matrices *)

Definition matrix : Type := list (list val).

Definition vdot (u v : list val) : val :=
  vsum (map (fun p => vmul (fst p) (snd p)) (combine u v)).

(** [df.transpose() @ df]: entry (i, j) is the product of columns i and j,
    no missing entry skipped. *)
Definition XtX (df : DataFrame) : matrix :=
  let C := map snd (columns df) in
  map (fun ci => map (fun cj => vdot ci cj) C) C.

(** [np.identity(p)] *)
Definition np_identity (p : nat) : matrix :=
  map (fun i => map (fun j => if (i =? j)%nat then Fin 1 else Fin 0) (seq 0 p))
      (seq 0 p).

(** [np.multiply(A, B)] on two matrices of one shape: entry by entry *)
Definition np_multiply (A B : matrix) : matrix :=
  map (fun rs => map (fun ab => vmul (fst ab) (snd ab)) (combine (fst rs) (snd rs)))
      (combine A B).

Definition width (M : matrix) : nat :=
  match M with
  | [] => O
  | r :: _ => length r
  end.

(** [c @ M] for a one-dimensional [c] *)
Definition vec_matmul (c : list val) (M : matrix) : result (list val) :=
  if (length c =? length M)%nat
  then OK (map (fun j => vdot c (map (fun r => nth j r NaN) M)) (seq 0 (width M)))
  else Raise ValueError.

(** [u @ v] for one-dimensional [u] and [v] *)
Definition vec_dot (u v : list val) : result val :=
  if (length u =? length v)%nat then OK (vdot u v) else Raise ValueError.

Definition is_square (M : matrix) : bool :=
  forallb (fun r => (length r =? length M)%nat) M.

Definition all_finite (M : matrix) : bool := forallb (forallb is_finite) M.

(** The matrix of order [n] with the given entries. *)
Definition tabulate (n : nat) (entry : nat -> nat -> val) : matrix :=
  map (fun i => map (fun j => entry i j) (seq 0 n)) (seq 0 n).

(** A matrix of [p] rows of [p] entries. *)
Definition square_of (p : nat) (M : matrix) : Prop :=
  length M = p /\ Forall (fun r => length r = p) M.

(** The standardized columns have sum of squares 1 each and finite cross
    products: the cross-product matrix has unit diagonal and finite entries. *)
Definition unit_columns (X : DataFrame) : Prop :=
  (forall c, In c (columns X) -> vdot (snd c) (snd c) = Fin 1) /\
  (forall c c', In c (columns X) -> In c' (columns X) ->
                is_finite (vdot (snd c) (snd c')) = true).

(** ** The function *)

(** A Python [dict]: keys in insertion order, each key once. *)
Definition dict (V : Type) : Type := list (string * V).

(** [d[k] = v]: an existing key keeps its place, a new key goes last. *)
Fixpoint dict_set {V : Type} (d : dict V) (k : string) (v : V) : dict V :=
  match d with
  | [] => [(k, v)]
  | (k', v') :: t =>
      if String.eqb k' k then (k', v) :: t else (k', v') :: dict_set t k v
  end.

Definition keys {V : Type} (d : dict V) : list string := map fst d.

Section Engine.

(** [nilearn.glm.expression_to_contrast_vector(expression, columns)] *)
Variable expression_to_contrast_vector :
  string -> list string -> result (list val).

(** The answer of [numpy.linalg.inv] on a square matrix that holds a NaN or
    an infinity (it depends on the LAPACK build). *)
Variable lapack_nonfinite : matrix -> result matrix.

(** Modelled from the spec: [numpy.linalg.inv] is not part of the
    repository.  It gives the inverse of a square matrix and fails with the
    singular-matrix error when there is none.  The matrix of order 0 is its
    own inverse; on a matrix of finite numbers the routine's verdict and the
    entries it computes are those of [fin_inv], laid out in a matrix of the
    order of the argument. *)
Definition np_linalg_inv (M : matrix) : result matrix :=
  if negb (is_square M) then Raise LinAlgError
  else if negb (all_finite M) then lapack_nonfinite M
  else
    match M with
    | [] => OK []
    | _ :: _ =>
        match fin_inv nu (map (map to_R) M) with
        | Some entry => OK (tabulate (length M) entry)
        | None => Raise LinAlgError
        end
    end.

(** [desmat_copy.transpose() @ desmat_copy] with the off-diagonal entries
    multiplied by zero (lines 40 to 45) *)
Definition diag_XtX (X : DataFrame) : matrix :=
  np_multiply (XtX X) (np_identity (length (columns X))).

(** The body of the loop for one contrast (lines 29 to 48): the value
    stored under the contrast's name. *)
Definition contrast_vif (X : DataFrame) (contrast_string : string)
  : result val :=
  contrast_cvec <- expression_to_contrast_vector contrast_string (column_names X) ;;
  inv_true <- np_linalg_inv (XtX X) ;;
  left_true <- vec_matmul contrast_cvec inv_true ;;
  true_var_contrast <- vec_dot left_true contrast_cvec ;;
  inv_best <- np_linalg_inv (diag_XtX X) ;;
  left_best <- vec_matmul contrast_cvec inv_best ;;
  best_var_contrast <- vec_dot left_best contrast_cvec ;;
  OK (vdiv true_var_contrast best_var_contrast).

(** [for contrast_name, contrast_string in contrasts.items(): ...] *)
Fixpoint contrasts_loop (X : DataFrame) (items : dict string)
         (vifs_contrasts : dict val) : result (dict val) :=
  match items with
  | [] => OK vifs_contrasts
  | (contrast_name, contrast_string) :: rest =>
      v <- contrast_vif X contrast_string ;;
      contrasts_loop X rest (dict_set vifs_contrasts contrast_name v)
  end.

Definition est_contrast_vifs (desmat : DataFrame) (contrasts : dict string)
  : result (dict val) :=
  contrasts_loop (desmat_copy desmat) contrasts [].

(** What one returned entry says about the contrast it comes from. *)
Definition entry_of (X : DataFrame) (item : string * string)
           (entry : string * val) : Prop :=
  fst entry = fst item /\ contrast_vif X (snd item) = OK (snd entry).

(** *** The once-and-reuse form of the spec

    Section 4.3 of the spec computes both inverses before the loop and
    reuses them for every contrast. *)
Definition contrast_vif_reusing (X : DataFrame) (inv_true inv_best : matrix)
           (contrast_string : string) : result val :=
  contrast_cvec <- expression_to_contrast_vector contrast_string (column_names X) ;;
  left_true <- vec_matmul contrast_cvec inv_true ;;
  true_var_contrast <- vec_dot left_true contrast_cvec ;;
  left_best <- vec_matmul contrast_cvec inv_best ;;
  best_var_contrast <- vec_dot left_best contrast_cvec ;;
  OK (vdiv true_var_contrast best_var_contrast).

Fixpoint contrasts_loop_reusing (X : DataFrame) (inv_true inv_best : matrix)
         (items : dict string) (vifs_contrasts : dict val)
  : result (dict val) :=
  match items with
  | [] => OK vifs_contrasts
  | (contrast_name, contrast_string) :: rest =>
      v <- contrast_vif_reusing X inv_true inv_best contrast_string ;;
      contrasts_loop_reusing X inv_true inv_best rest
                             (dict_set vifs_contrasts contrast_name v)
  end.

Definition spec_est_contrast_vifs_once (desmat : DataFrame)
           (contrasts : dict string) : result (dict val) :=
  let X := desmat_copy desmat in
  inv_true <- np_linalg_inv (XtX X) ;;
  inv_best <- np_linalg_inv (diag_XtX X) ;;
  contrasts_loop_reusing X inv_true inv_best contrasts [].

End Engine.

(** ** The arithmetic without rounding

    The quantities of the standardization on lists of reals, the exact
    inverse of a matrix of reals, and [ideal], the arithmetic in which every
    operation on finite numbers is exact.  The concrete design matrices of
    the last part are evaluated with it. *)

Definition Rsum (l : list R) : R := fold_right Rplus 0 l.

Definition Rdot (u v : list R) : R :=
  Rsum (map (fun p => fst p * snd p) (combine u v)).

(** The mean and the sum of squared deviations of a list of reals. *)
Definition Rmean (l : list R) : R := Rsum l / INR (length l).

Definition Rssd (l : list R) : R :=
  Rsum (map (fun x => (Rmean l - x) * (Rmean l - x)) l).

(** The divisor of the standardization and the standardized entries, for a
    column of [nsamp] finite values. *)
Definition Rdivisor (nsamp : nat) (l : list R) : R :=
  sqrt (INR nsamp - 1) * sqrt (Rssd l / INR (length l - 1)).

Definition Rscaled (nsamp : nat) (l : list R) : list R :=
  map (fun x => (x - Rmean l) / Rdivisor nsamp l) l.

Definition remove_nth {A : Type} (k : nat) (l : list A) : list A :=
  firstn k l ++ skipn (S k) l.

Definition sign (k : nat) : R := if Nat.even k then 1 else -1.

(** Laplace expansion along the first row; [n] is the order of [M]. *)
Fixpoint det (n : nat) (M : list (list R)) : R :=
  match n, M with
  | S n', r :: rest =>
      Rsum (map (fun j => sign j * nth j r 0 * det n' (map (remove_nth j) rest))
                (seq 0 n))
  | _, _ => 1
  end.

Definition cofactor (n : nat) (M : list (list R)) (i j : nat) : R :=
  sign (i + j) * det (n - 1) (map (remove_nth j) (remove_nth i M)).

(** The inverse as the adjugate over the determinant, none when the
    determinant is zero. *)
Definition exact_inv (A : list (list R)) : option (nat -> nat -> val) :=
  let n := length A in
  let d := det n A in
  if Reqb d 0 then None else Some (fun i j => Fin (cofactor n A j i / d)).

Definition ideal : numerics :=
  mkNumerics (fun x y => Fin (x + y)) (fun x y => Fin (x * y))
             (fun x y => Fin (x / y)) (fun x => Fin (sqrt x))
             (fun x => Fin (sqrt x)) exact_inv.

(** ** Stand-ins for the external collaborators

    Used where a statement is evaluated on a concrete input.
    [demo_builder] follows the first branch of nilearn's builder (an
    expression that is a column name selects the first column of that name)
    and knows the difference "A - B" on columns where each of the two names
    occurs once. *)

Fixpoint one_hot (name : string) (cols : list string) : list val :=
  match cols with
  | [] => []
  | c :: t =>
      if String.eqb c name then Fin 1 :: map (fun _ => Fin 0) t
      else Fin 0 :: one_hot name t
  end.

Definition occurs_once (name : string) (cols : list string) : bool :=
  (length (filter (String.eqb name) cols) =? 1)%nat.

Definition demo_builder (expression : string) (cols : list string)
  : result (list val) :=
  if existsb (String.eqb expression) cols then OK (one_hot expression cols)
  else if String.eqb expression "A - B" then
    if occurs_once "A" cols && occurs_once "B" cols
    then OK (map (fun c => if String.eqb c "A" then Fin 1
                           else if String.eqb c "B" then Fin (-1) else Fin 0) cols)
    else Raise ValueError
  else Raise ValueError.

(** A stand-in for the inversion of a matrix that holds NaN or an infinity:
    NaN in every entry, the usual answer of LAPACK to a matrix holding NaN. *)
Definition demo_nonfinite (M : matrix) : result matrix :=
  OK (map (map (fun _ => NaN)) M).

(** A builder that answers every expression with the zero vector. *)
Definition zero_builder (expression : string) (cols : list string)
  : result (list val) :=
  OK (map (fun _ => Fin 0) cols).

(** A builder whose vector has one entry, whatever the columns. *)
Definition short_builder (expression : string) (cols : list string)
  : result (list val) :=
  OK [Fin 1].

(** ** Concrete design matrices *)

Definition colA : list R := [-1; 0; 1].
Definition colB : list R := [0; -1; 1].

(** Three samples, two regressors with correlation 1/2. *)
Definition desmat_half : DataFrame :=
  mkDF 3 [("A"%string, map Fin colA); ("B"%string, map Fin colB)].

(** The contrasts "A - B" and "A" on [desmat_half], supplied in this order. *)
Definition contrasts_C2_C1 : dict string :=
  [("C2"%string, "A - B"%string); ("C1"%string, "A"%string)].

(** Two copies of one regressor: the cross-product matrix is singular. *)
Definition desmat_collinear : DataFrame :=
  mkDF 3 [("A"%string, map Fin colA); ("B"%string, map Fin colA)].

(** One regressor with a missing entry among distinct values. *)
Definition desmat_missing : DataFrame :=
  mkDF 3 [("A"%string, [Fin 0; Fin 2; NaN])].

(** One regressor, constant where present, with a missing entry. *)
Definition desmat_const_missing : DataFrame :=
  mkDF 3 [("A"%string, [Fin 1; Fin 1; NaN])].

(** One constant regressor, nothing missing. *)
Definition desmat_const : DataFrame :=
  mkDF 2 [("K"%string, [Fin 1; Fin 1])].

(** * Properties *)

(** ** Scalar tests *)

Lemma Reqb_refl (x : R) : Reqb x x = true.
Proof. unfold Reqb; destruct (Req_dec_T x x); congruence. Qed.

Lemma Reqb_eq (x y : R) : Reqb x y = true <-> x = y.
Proof. unfold Reqb; destruct (Req_dec_T x y); split; congruence. Qed.

Lemma Reqb_neq (x y : R) : x <> y -> Reqb x y = false.
Proof. unfold Reqb; destruct (Req_dec_T x y); congruence. Qed.

Lemma Rltb_lt (x y : R) : x < y -> Rltb x y = true.
Proof. unfold Rltb; destruct (Rlt_dec x y); tauto. Qed.

Lemma Rltb_ge (x y : R) : y <= x -> Rltb x y = false.
Proof. unfold Rltb; destruct (Rlt_dec x y); [lra | reflexivity]. Qed.

Lemma val_eqb_eq (a b : val) : val_eqb a b = true -> a = b.
Proof.
  destruct a as [x|s|], b as [y|t|]; simpl; try discriminate.
  - intros H; apply Reqb_eq in H; congruence.
  - intros H; apply Bool.eqb_prop in H; congruence.
Qed.

Lemma val_eqb_refl (a : val) : isnull a = false -> val_eqb a a = true.
Proof.
  destruct a as [x|s|]; simpl; intros H.
  - apply Reqb_refl.
  - apply Bool.eqb_reflx.
  - discriminate.
Qed.

Lemma isnull_false_iff (a : val) : isnull a = false <-> a <> NaN.
Proof. destruct a; simpl; split; congruence. Qed.

(** ** The retention rule *)

Lemma isnull_any_iff (col : list val) :
  isnull_any col = true <-> has_missing col.
Proof.
  unfold isnull_any, has_missing; rewrite existsb_exists; split.
  - intros [a [Ha Hn]]; destruct a; simpl in Hn; try discriminate; exact Ha.
  - intros H; exists NaN; split; [exact H | reflexivity].
Qed.

Lemma dropna_In (col : list val) (a : val) :
  In a (dropna col) <-> In a col /\ a <> NaN.
Proof.
  unfold dropna; rewrite filter_In, negb_true_iff, isnull_false_iff; tauto.
Qed.

Lemma existsb_val_eqb_In (a : val) (l : list val) :
  existsb (val_eqb a) l = true -> In a l.
Proof.
  rewrite existsb_exists; intros [b [Hb He]].
  apply val_eqb_eq in He; subst; exact Hb.
Qed.

Lemma In_existsb_val_eqb (a : val) (l : list val) :
  a <> NaN -> In a l -> existsb (val_eqb a) l = true.
Proof.
  intros Hn Hin; apply existsb_exists; exists a; split; [exact Hin|].
  apply val_eqb_refl, isnull_false_iff, Hn.
Qed.

Lemma unique_nil (l : list val) : unique l = [] -> l = [].
Proof.
  induction l as [|a t IH]; simpl; [reflexivity|].
  destruct (existsb (val_eqb a) t) eqn:E; [|discriminate].
  intros H; apply IH in H; subst; discriminate.
Qed.

(** At most one distinct value exactly when any two entries agree. *)
Lemma unique_le_1 (l : list val) :
  Forall (fun a => a <> NaN) l ->
  ((length (unique l) <= 1)%nat <-> forall x y, In x l -> In y l -> x = y).
Proof.
  induction l as [|a t IH]; intros Hn.
  - simpl; split; [intros _ x y [] | intros _; lia].
  - inversion Hn as [|a' t' Ha Ht]; subst.
    specialize (IH Ht); simpl unique.
    destruct (existsb (val_eqb a) t) eqn:E.
    + apply existsb_val_eqb_In in E.
      rewrite IH; split.
      * intros H x y [Hx|Hx] [Hy|Hy]; subst; auto.
      * intros H x y Hx Hy; apply H; right; assumption.
    + simpl length; split.
      * intros H.
        assert (Hu : unique t = []) by (destruct (unique t); simpl in H; [reflexivity | lia]).
        apply unique_nil in Hu; subst t.
        intros x y [Hx|[]] [Hy|[]]; congruence.
      * intros H.
        destruct t as [|b t]; [simpl; lia|].
        assert (Hb : b = a) by (apply H; [right; left; reflexivity | left; reflexivity]).
        subst b.
        rewrite In_existsb_val_eqb in E; [discriminate | exact Ha | left; reflexivity].
Qed.

Lemma val_eq_dec (a b : val) : {a = b} + {a <> b}.
Proof.
  destruct a as [x|s|], b as [y|t|]; try (right; discriminate).
  - destruct (Req_dec_T x y); [left; congruence | right; congruence].
  - destruct (Bool.bool_dec s t); [left; congruence | right; congruence].
  - left; reflexivity.
Qed.

Lemma all_equal_or_distinct (l : list val) :
  (forall x y, In x l -> In y l -> x = y) \/
  (exists x y, In x l /\ In y l /\ x <> y).
Proof.
  induction l as [|a t IH]; [left; intros x y []|].
  destruct IH as [E|[x [y [Hx [Hy Hxy]]]]].
  - destruct t as [|b t]; [left; intros x y [Hx|[]] [Hy|[]]; congruence|].
    destruct (val_eq_dec a b) as [Hab|Hab].
    + left; subst b; intros x y [Hx|Hx] [Hy|Hy]; subst;
        first [reflexivity | apply E; simpl; auto].
    + right; exists a, b; simpl; auto.
  - right; exists x, y; simpl; auto.
Qed.

Lemma dropna_no_NaN (col : list val) : Forall (fun a => a <> NaN) (dropna col).
Proof. apply Forall_forall; intros a Ha; apply dropna_In in Ha; tauto. Qed.

Lemma nunique_gt_1_iff (col : list val) :
  (1 <? nunique col)%nat = true <-> more_than_one_distinct col.
Proof.
  unfold nunique, more_than_one_distinct.
  destruct (unique_le_1 (dropna col) (dropna_no_NaN col)) as [U1 U2].
  rewrite Nat.ltb_lt; split.
  - intros H.
    destruct (all_equal_or_distinct (dropna col)) as [D|D].
    + exfalso; apply U2 in D; lia.
    + destruct D as [x [y [Hx [Hy Hxy]]]].
      apply dropna_In in Hx, Hy.
      exists x, y; tauto.
  - intros [x [y [Hx [Hy [Nx [Ny Hxy]]]]]].
    apply Nat.nle_gt; intros Hle.
    apply Hxy, (U1 Hle); apply dropna_In; tauto.
Qed.

Lemma keep_mask_iff (col : list val) :
  keep_mask col = true <-> more_than_one_distinct col \/ has_missing col.
Proof.
  unfold keep_mask.
  rewrite orb_true_iff, nunique_gt_1_iff, isnull_any_iff; tauto.
Qed.

Lemma keep_mask_constant (col : list val) :
  (forall x y, In x col -> In y col -> x = y) -> ~ has_missing col ->
  keep_mask col = false.
Proof.
  intros Hc Hm.
  destruct (keep_mask col) eqn:E; [|reflexivity].
  apply keep_mask_iff in E.
  destruct E as [[x [y [Hx [Hy [_ [_ Hxy]]]]]]|E]; [|contradiction].
  exfalso; apply Hxy, Hc; assumption.
Qed.

(** C3.  A column of the design matrix is among the retained columns exactly
    when it has more than one distinct value or holds a missing value; the
    columns of the standardized matrix are the retained ones, in order, so a
    constant column without missing entries is gone before standardization. *)
Theorem C3_retention_rule (desmat : DataFrame) :
  (forall c : column,
      In c (columns (loc_columns desmat)) <->
      In c (columns desmat) /\
      (more_than_one_distinct (snd c) \/ has_missing (snd c))) /\
  columns (desmat_copy desmat) =
    map (fun c : column => (fst c, scale_column (nrows desmat) (snd c)))
        (columns (loc_columns desmat)) /\
  column_names (desmat_copy desmat) = column_names (loc_columns desmat) /\
  (forall c : column,
      In c (columns desmat) ->
      (forall x y, In x (snd c) -> In y (snd c) -> x = y) ->
      ~ has_missing (snd c) ->
      ~ In c (columns (loc_columns desmat))).
Proof.
  split; [|split; [|split]].
  - intros c; unfold loc_columns; simpl.
    rewrite filter_In, keep_mask_iff; tauto.
  - reflexivity.
  - unfold column_names, desmat_copy, scale; simpl.
    rewrite map_map; reflexivity.
  - intros c Hin Hc Hm Hk.
    unfold loc_columns in Hk; simpl in Hk.
    apply filter_In in Hk; destruct Hk as [_ Hk].
    rewrite (keep_mask_constant _ Hc Hm) in Hk; discriminate.
Qed.

(** A frame without rows keeps no column, so [(nsamp - 1) ** 0.5] is never
    used with [nsamp = 0]. *)
Lemma no_rows_no_columns (desmat : DataFrame) :
  wf desmat -> nrows desmat = O -> columns (loc_columns desmat) = [].
Proof.
  unfold wf, loc_columns; cbn [columns nrows]; intros W H0.
  induction (columns desmat) as [|c t IH]; [reflexivity|].
  inversion W as [|c' t' Hc Ht]; subst.
  cbn [filter]; rewrite H0 in Hc.
  destruct (snd c) as [|x xs]; [|discriminate].
  cbn; apply IH, Ht.
Qed.

(** ** The loop *)

Lemma dict_set_fresh {V : Type} (d : dict V) (k : string) (v : V) :
  ~ In k (keys d) -> dict_set d k v = d ++ [(k, v)].
Proof.
  induction d as [|[k' v'] t IH]; simpl; intros H; [reflexivity|].
  destruct (String.eqb k' k) eqn:E.
  - apply String.eqb_eq in E; tauto.
  - rewrite IH; [reflexivity | tauto].
Qed.

Section LoopFacts.

Variable builder : string -> list string -> result (list val).
Variable lapack : matrix -> result matrix.
Variable X : DataFrame.

Local Abbreviation vif := (contrast_vif builder lapack X).
Local Abbreviation entry := (entry_of builder lapack X).
Local Abbreviation loop := (contrasts_loop builder lapack X).

Lemma loop_OK (items : dict string) :
  forall (acc m : dict val),
    NoDup (keys acc ++ keys items) ->
    loop items acc = OK m ->
    exists es, m = acc ++ es /\ Forall2 entry items es.
Proof.
  induction items as [|[name expr] rest IH]; intros acc m Hnd H.
  - simpl in H; injection H as <-.
    exists []; rewrite app_nil_r; split; [reflexivity | constructor].
  - simpl in H.
    destruct (contrast_vif builder lapack X expr) as [v|e] eqn:Ev;
      simpl in H; [|discriminate].
    simpl in Hnd.
    assert (Hfresh : ~ In name (keys acc)).
    { apply NoDup_remove_2 in Hnd; intros Hin; apply Hnd, in_or_app; auto. }
    rewrite dict_set_fresh in H by exact Hfresh.
    apply IH in H.
    + destruct H as [es [-> Hes]].
      exists ((name, v) :: es); split.
      * rewrite <- app_assoc; reflexivity.
      * constructor; [split; [reflexivity | exact Ev] | exact Hes].
    + unfold keys in *; rewrite map_app; simpl.
      rewrite <- app_assoc; simpl.
      apply NoDup_Add with (a := name) (l := map fst acc ++ map fst rest).
      * apply Add_app.
      * split; [apply NoDup_remove_1 in Hnd; exact Hnd|].
        apply NoDup_remove_2 in Hnd; exact Hnd.
Qed.

Lemma loop_Raise (items : dict string) :
  forall (acc : dict val) (e : exn),
    loop items acc = Raise e ->
    exists pre name expr post,
      items = pre ++ (name, expr) :: post /\
      vif expr = Raise e /\
      Forall (fun item => exists v, vif (snd item) = OK v) pre.
Proof.
  induction items as [|[name expr] rest IH]; intros acc e H.
  - discriminate.
  - simpl in H.
    destruct (contrast_vif builder lapack X expr) as [v|e'] eqn:Ev; simpl in H.
    + apply IH in H; destruct H as [pre [n [x [post [-> [Hx Hpre]]]]]].
      exists ((name, expr) :: pre), n, x, post; split; [reflexivity|].
      split; [exact Hx|].
      constructor; [exists v; exact Ev | exact Hpre].
    + injection H as ->.
      exists [], name, expr, rest; split; [reflexivity|].
      split; [exact Ev | constructor].
Qed.

Lemma Forall2_entry_keys (items : dict string) (es : dict val) :
  Forall2 entry items es -> keys es = keys items.
Proof.
  induction 1 as [|i e is' es' [Hk _] _ IH]; [reflexivity|].
  unfold keys in *; simpl; congruence.
Qed.

End LoopFacts.

Section Properties.

Variable builder : string -> list string -> result (list val).
Variable lapack : matrix -> result matrix.

Local Abbreviation est := (est_contrast_vifs builder lapack).
Local Abbreviation est_once := (spec_est_contrast_vifs_once builder lapack).
Local Abbreviation vif := (contrast_vif builder lapack).
Local Abbreviation inv := (np_linalg_inv lapack).

(** C5.  A call either returns the full mapping, one entry per supplied
    contrast, in order, each holding that contrast's VIF, or it raises the
    exception of the first contrast that fails and returns nothing. *)
Theorem C5_full_mapping_or_exception
        (desmat : DataFrame) (contrasts : dict string) :
  NoDup (keys contrasts) ->
  (exists m,
      est desmat contrasts = OK m /\
      keys m = keys contrasts /\
      Forall2 (entry_of builder lapack (desmat_copy desmat)) contrasts m) \/
  (exists e,
      est desmat contrasts = Raise e /\
      exists pre name expr post,
        contrasts = pre ++ (name, expr) :: post /\
        vif (desmat_copy desmat) expr = Raise e /\
        Forall (fun item => exists v, vif (desmat_copy desmat) (snd item) = OK v)
               pre).
Proof.
  intros Hnd.
  destruct (est desmat contrasts) as [m|e] eqn:E; unfold est_contrast_vifs in E.
  - left; exists m.
    apply loop_OK in E; [|exact Hnd].
    destruct E as [es [-> Hes]]; simpl.
    split; [reflexivity|].
    split; [eapply Forall2_entry_keys; exact Hes | exact Hes].
  - right; exists e; split; [reflexivity|].
    apply loop_Raise in E; exact E.
Qed.

(** C6.  When the call succeeds, the keys of the returned mapping are the
    supplied contrast names in the supplied order; the design matrix has no
    say in it, so a second design matrix gives the same keys in the same
    order. *)
Theorem C6_order_preserved
        (desmat : DataFrame) (contrasts : dict string) (m : dict val) :
  NoDup (keys contrasts) ->
  est desmat contrasts = OK m ->
  keys m = keys contrasts /\
  (forall desmat' m', est desmat' contrasts = OK m' -> keys m' = keys m).
Proof.
  intros Hnd E.
  assert (K : forall d r, est d contrasts = OK r -> keys r = keys contrasts).
  { intros d r H; unfold est_contrast_vifs in H.
    apply loop_OK in H; [|exact Hnd].
    destruct H as [es [-> Hes]]; simpl.
    eapply Forall2_entry_keys; exact Hes. }
  split; [apply (K desmat), E|].
  intros d' m' E'; rewrite (K d' m' E'), (K desmat m E); reflexivity.
Qed.

Lemma loc_columns_insert_constant (k : nat) (name : string) (col : list val)
      (desmat : DataFrame) :
  (forall x y, In x col -> In y col -> x = y) -> ~ has_missing col ->
  loc_columns (insert_column k (name, col) desmat) = loc_columns desmat.
Proof.
  intros Hc Hm; unfold loc_columns, insert_column; simpl; f_equal.
  rewrite filter_app; simpl.
  rewrite (keep_mask_constant col Hc Hm).
  rewrite <- filter_app, firstn_skipn; reflexivity.
Qed.

(** C8.  Inserting, at any position, a column whose entries are all the
    same and none missing leaves the outcome of the call unchanged: a call
    that succeeded still succeeds with the same VIF for every contrast. *)
Theorem C8_constant_column_invariance
        (desmat : DataFrame) (contrasts : dict string)
        (k : nat) (name : string) (col : list val) :
  (forall x y, In x col -> In y col -> x = y) ->
  ~ has_missing col ->
  (forall m, est desmat contrasts = OK m ->
             est (insert_column k (name, col) desmat) contrasts = OK m) /\
  est (insert_column k (name, col) desmat) contrasts = est desmat contrasts.
Proof.
  intros Hc Hm.
  assert (E : est (insert_column k (name, col) desmat) contrasts
              = est desmat contrasts).
  { unfold est_contrast_vifs, desmat_copy.
    rewrite (loc_columns_insert_constant k name col desmat Hc Hm); reflexivity. }
  split; [intros m H; rewrite E; exact H | exact E].
Qed.

(** C10.  With no contrast the loop body never runs: the call returns the
    empty mapping for every design matrix, whatever the contrast builder and
    the inversion would have done. *)
Theorem C10_empty_contrasts (desmat : DataFrame) :
  est desmat [] = OK [].
Proof. reflexivity. Qed.

(** ** Once-and-reuse against the loop of the source *)

Lemma contrast_vif_reusing_eq (X : DataFrame) (iG iD : matrix) (expr : string) :
  inv (XtX X) = OK iG -> inv (diag_XtX X) = OK iD ->
  contrast_vif_reusing builder X iG iD expr = vif X expr.
Proof.
  intros HG HD; unfold contrast_vif, contrast_vif_reusing.
  rewrite HG, HD.
  destruct (builder expr (column_names X)) as [c|e]; simpl; [|reflexivity].
  destruct (vec_matmul c iG) as [t|e]; simpl; [|reflexivity].
  destruct (vec_dot t c) as [tv|e]; simpl; reflexivity.
Qed.

Lemma contrasts_loop_reusing_eq (X : DataFrame) (iG iD : matrix) :
  inv (XtX X) = OK iG -> inv (diag_XtX X) = OK iD ->
  forall items acc,
    contrasts_loop_reusing builder X iG iD items acc
    = contrasts_loop builder lapack X items acc.
Proof.
  intros HG HD; induction items as [|[name expr] rest IH]; intros acc.
  - reflexivity.
  - simpl; rewrite (contrast_vif_reusing_eq X iG iD expr HG HD).
    destruct (vif X expr) as [v|e]; simpl; [apply IH | reflexivity].
Qed.

Lemma vif_OK_inverses (X : DataFrame) (expr : string) (v : val) :
  vif X expr = OK v ->
  exists iG iD, inv (XtX X) = OK iG /\ inv (diag_XtX X) = OK iD.
Proof.
  unfold contrast_vif; intros H.
  destruct (builder expr (column_names X)) as [c|e]; simpl in H; [|discriminate].
  destruct (inv (XtX X)) as [iG|e]; simpl in H; [|discriminate].
  destruct (vec_matmul c iG) as [t|e]; simpl in H; [|discriminate].
  destruct (vec_dot t c) as [tv|e]; simpl in H; [|discriminate].
  destruct (inv (diag_XtX X)) as [iD|e]; simpl in H; [|discriminate].
  exists iG, iD; split; reflexivity.
Qed.

(** C9 (amended).  The two inverses depend on the standardized matrix only.
    When both inversions succeed, computing them once before the loop gives
    the outcome of the source, which computes them inside the loop, for every
    contrasts mapping; a mapping returned by the once-and-reuse form is the
    mapping the source returns, and a mapping the source returns for at
    least one contrast is the one the once-and-reuse form returns. *)
Theorem C9_once_and_reuse_agrees_when_invertible
        (desmat : DataFrame) (contrasts : dict string) :
  ((exists iG iD, inv (XtX (desmat_copy desmat)) = OK iG /\
                  inv (diag_XtX (desmat_copy desmat)) = OK iD) ->
   est_once desmat contrasts = est desmat contrasts) /\
  (forall m, est_once desmat contrasts = OK m -> est desmat contrasts = OK m) /\
  (contrasts <> [] ->
   forall m, est desmat contrasts = OK m -> est_once desmat contrasts = OK m).
Proof.
  assert (A : (exists iG iD, inv (XtX (desmat_copy desmat)) = OK iG /\
                             inv (diag_XtX (desmat_copy desmat)) = OK iD) ->
              est_once desmat contrasts = est desmat contrasts).
  { intros [iG [iD [HG HD]]].
    unfold spec_est_contrast_vifs_once, est_contrast_vifs.
    rewrite HG, HD; simpl.
    apply contrasts_loop_reusing_eq; assumption. }
  split; [exact A|split].
  - intros m H; rewrite <- A; [exact H|].
    unfold spec_est_contrast_vifs_once in H.
    destruct (inv (XtX (desmat_copy desmat))) as [iG|e]; simpl in H; [|discriminate].
    destruct (inv (diag_XtX (desmat_copy desmat))) as [iD|e]; simpl in H;
      [|discriminate].
    exists iG, iD; split; reflexivity.
  - intros Hne m H; rewrite A; [exact H|].
    destruct contrasts as [|[name expr] rest]; [congruence|].
    unfold est_contrast_vifs in H; simpl in H.
    destruct (vif (desmat_copy desmat) expr) as [v|e] eqn:Ev; simpl in H;
      [|discriminate].
    eapply vif_OK_inverses; exact Ev.
Qed.

End Properties.

(** ** Failure of the first inversion, and contrasts one by one *)

Section FailFast.

Variable builder : string -> list string -> result (list val).
Variable lapack : matrix -> result matrix.

Local Abbreviation est := (est_contrast_vifs builder lapack).
Local Abbreviation vif := (contrast_vif builder lapack).

(** X5.  When the cross-product matrix cannot be inverted, the call returns
    a mapping only for an empty contrasts mapping.  Otherwise it raises at
    the first contrast: the builder's exception if that expression fails,
    the exception of the inversion if it builds. *)
Theorem X5_singular_design_fails_at_first_contrast
        (desmat : DataFrame) (e : exn) :
  np_linalg_inv lapack (XtX (desmat_copy desmat)) = Raise e ->
  (forall contrasts m, est desmat contrasts = OK m -> contrasts = [] /\ m = []) /\
  (forall name expr rest,
      est desmat ((name, expr) :: rest)
      = match builder expr (column_names (desmat_copy desmat)) with
        | OK _ => Raise e
        | Raise e' => Raise e'
        end).
Proof.
  intros Hinv.
  assert (Hfirst : forall name expr rest,
             est desmat ((name, expr) :: rest)
             = match builder expr (column_names (desmat_copy desmat)) with
               | OK _ => Raise e
               | Raise e' => Raise e'
               end).
  { intros name expr rest.
    unfold est_contrast_vifs; cbn [contrasts_loop]; unfold contrast_vif.
    destruct (builder expr (column_names (desmat_copy desmat))) as [c|e'];
      cbn [bind]; [rewrite Hinv|]; reflexivity. }
  split; [|exact Hfirst].
  intros [|[name expr] rest] m H.
  - injection H as <-; split; reflexivity.
  - rewrite Hfirst in H.
    destruct (builder expr (column_names (desmat_copy desmat))); discriminate.
Qed.

(** X6.  The contrasts do not influence one another.  A call that returns
    a mapping gives every contrast the value that a call with this contrast
    alone returns; and when every contrast alone succeeds, so does the call
    with all of them. *)
Theorem X6_contrasts_are_independent
        (desmat : DataFrame) (contrasts : dict string) :
  NoDup (keys contrasts) ->
  (forall m,
      est desmat contrasts = OK m ->
      forall name expr,
        In (name, expr) contrasts ->
        exists v, In (name, v) m /\ est desmat [(name, expr)] = OK [(name, v)]) /\
  ((forall name expr,
       In (name, expr) contrasts ->
       exists v, est desmat [(name, expr)] = OK [(name, v)]) ->
   exists m, est desmat contrasts = OK m).
Proof.
  intros Hnd; split.
  - intros m H name expr Hin.
    unfold est_contrast_vifs in H.
    apply loop_OK in H; [|exact Hnd].
    destruct H as [es [-> Hes]]; cbn [app].
    clear Hnd; induction Hes as [|item entry items es' [Hk Hv] _ IH];
      [destruct Hin|].
    destruct Hin as [->|Hin].
    + cbn [fst snd] in Hk, Hv; destruct entry as [k v]; cbn [fst snd] in *.
      subst k; exists v; split; [left; reflexivity|].
      unfold est_contrast_vifs; cbn [contrasts_loop]; rewrite Hv; reflexivity.
    + destruct (IH Hin) as [v [Hm Hs]]; exists v; split; [right; exact Hm|exact Hs].
  - intros Hall.
    destruct (est desmat contrasts) as [m|e] eqn:E; [exists m; reflexivity|].
    exfalso; unfold est_contrast_vifs in E; apply loop_Raise in E.
    destruct E as [pre [name [expr [post [-> [Hx _]]]]]].
    destruct (Hall name expr) as [v Hv]; [apply in_or_app; right; left; reflexivity|].
    unfold est_contrast_vifs in Hv; cbn [contrasts_loop] in Hv.
    rewrite Hx in Hv; discriminate.
Qed.

End FailFast.

(** ** A design matrix without a retained column *)

Section Degenerate.

Variable builder : string -> list string -> result (list val).
Variable lapack : matrix -> result matrix.

Local Abbreviation est := (est_contrast_vifs builder lapack).

Lemma contrasts_loop_all_OK (X : DataFrame) (f : string -> val)
      (items : dict string) :
  (forall item, In item items ->
                contrast_vif builder lapack X (snd item) = OK (f (snd item))) ->
  forall acc,
    NoDup (keys acc ++ keys items) ->
    contrasts_loop builder lapack X items acc
    = OK (acc ++ map (fun item => (fst item, f (snd item))) items).
Proof.
  induction items as [|[name expr] rest IH]; intros Hall acc Hnd.
  - simpl; rewrite app_nil_r; reflexivity.
  - cbn [contrasts_loop].
    pose proof (Hall (name, expr) (or_introl eq_refl)) as Hv; cbn [snd] in Hv.
    rewrite Hv; cbn [bind fst snd map].
    simpl in Hnd.
    rewrite dict_set_fresh.
    + rewrite IH.
      * rewrite <- app_assoc; reflexivity.
      * intros item Hi; apply Hall; right; exact Hi.
      * unfold keys in *; rewrite map_app, <- app_assoc; exact Hnd.
    + apply NoDup_remove_2 in Hnd; intros Hin; apply Hnd, in_or_app; auto.
Qed.

(** With no column, the value of one contrast whose vector is empty. *)
Lemma contrast_vif_no_columns (X : DataFrame) (expr : string) :
  columns X = [] -> builder expr [] = OK [] ->
  contrast_vif builder lapack X expr = OK NaN.
Proof.
  intros HX Hb; unfold contrast_vif, column_names, diag_XtX, XtX.
  rewrite HX; cbn [map length]; rewrite Hb; cbn [bind].
  unfold np_linalg_inv, np_multiply, np_identity.
  cbn [combine map is_square all_finite forallb negb length seq bind].
  unfold vec_matmul, vec_dot, vdot, vsum.
  cbn [length Nat.eqb width seq map combine fold_left bind vdiv].
  rewrite Reqb_refl; reflexivity.
Qed.

(** C7 (amended).  The function holds no check for a design matrix whose
    columns are all dropped: the standardized matrix has no column, its
    cross-product matrix is the matrix of order 0, whose inversion succeeds,
    and the call returns the empty mapping for an empty contrasts mapping,
    and NaN for every contrast when the builder answers each expression with
    the empty vector.  *)
Theorem C7_no_column_is_not_an_error
        (desmat : DataFrame) (contrasts : dict string) :
  columns (loc_columns desmat) = [] ->
  columns (desmat_copy desmat) = [] /\
  XtX (desmat_copy desmat) = [] /\
  np_linalg_inv lapack (XtX (desmat_copy desmat)) = OK [] /\
  est desmat [] = OK [] /\
  (NoDup (keys contrasts) ->
   (forall item, In item contrasts -> builder (snd item) [] = OK []) ->
   est desmat contrasts = OK (map (fun item => (fst item, NaN)) contrasts)).
Proof.
  intros H.
  assert (HX : columns (desmat_copy desmat) = []).
  { unfold desmat_copy, scale; cbn [columns]; rewrite H; reflexivity. }
  assert (HG : XtX (desmat_copy desmat) = []) by (unfold XtX; rewrite HX; reflexivity).
  split; [exact HX|split; [exact HG|split; [|split; [reflexivity|]]]].
  - rewrite HG; reflexivity.
  - intros Hnd Hb; unfold est_contrast_vifs.
    rewrite (contrasts_loop_all_OK (desmat_copy desmat) (fun _ => NaN));
      [reflexivity| |exact Hnd].
    intros item Hi; apply contrast_vif_no_columns; [exact HX | apply Hb, Hi].
Qed.

End Degenerate.

(** ** Shapes *)

Lemma length_scale_column (n : nat) (col : list val) :
  length (scale_column n col) = length col.
Proof. unfold scale_column; apply length_map. Qed.

Lemma wf_desmat_copy (desmat : DataFrame) : wf desmat -> wf (desmat_copy desmat).
Proof.
  unfold wf, desmat_copy, scale, loc_columns; cbn [columns nrows]; intros W.
  apply Forall_forall; intros c Hc.
  apply in_map_iff in Hc; destruct Hc as [c0 [<- Hc0]]; cbn [snd].
  apply filter_In in Hc0; destruct Hc0 as [Hc0 _].
  rewrite length_scale_column.
  rewrite Forall_forall in W; apply W, Hc0.
Qed.

Lemma scaled_column_In (desmat : DataFrame) (name : string) (col : list val) :
  In (name, col) (columns (loc_columns desmat)) ->
  In (name, scale_column (nrows desmat) col) (columns (desmat_copy desmat)).
Proof.
  intros Hin; unfold desmat_copy, scale; cbn [columns nrows].
  apply in_map_iff; exists (name, col); split; [reflexivity | exact Hin].
Qed.

Lemma nth_map_lt {A B : Type} (f : A -> B) (l : list A) (i : nat) (d : B) (a : A) :
  (i < length l)%nat -> nth i (map f l) d = f (nth i l a).
Proof.
  intros H.
  rewrite (nth_indep _ d (f a)) by (rewrite length_map; exact H).
  apply map_nth.
Qed.

Lemma nth_map_seq0 {A : Type} (f : nat -> A) (s n j : nat) (d : A) :
  (j < n)%nat -> nth j (map f (seq s n)) d = f (s + j)%nat.
Proof.
  intros Hj.
  rewrite (nth_indep _ d (f O)) by (rewrite length_map, length_seq; exact Hj).
  rewrite map_nth, seq_nth by exact Hj; reflexivity.
Qed.

Lemma length_XtX (X : DataFrame) : length (XtX X) = length (columns X).
Proof. unfold XtX; cbv zeta; rewrite !length_map; reflexivity. Qed.

Lemma nth_row_XtX (X : DataFrame) (i : nat) (d : column) :
  (i < length (columns X))%nat ->
  nth i (XtX X) []
  = map (fun cj => vdot (snd (nth i (columns X) d)) cj) (map snd (columns X)).
Proof.
  intros Hi; unfold XtX; cbv zeta.
  rewrite (nth_map_lt _ _ i [] (snd d)) by (rewrite length_map; exact Hi).
  rewrite (map_nth snd); reflexivity.
Qed.

Lemma nth_XtX (X : DataFrame) (i j : nat) (d : column) :
  (i < length (columns X))%nat -> (j < length (columns X))%nat ->
  nth j (nth i (XtX X) []) NaN
  = vdot (snd (nth i (columns X) d)) (snd (nth j (columns X) d)).
Proof.
  intros Hi Hj; rewrite (nth_row_XtX X i d Hi).
  rewrite (nth_map_lt _ _ j NaN (snd d)) by (rewrite length_map; exact Hj).
  rewrite (map_nth snd); reflexivity.
Qed.

Lemma is_square_XtX (X : DataFrame) : is_square (XtX X) = true.
Proof.
  unfold is_square, XtX; cbv zeta; rewrite length_map.
  apply forallb_forall; intros r Hr.
  apply in_map_iff in Hr; destruct Hr as [ci [<- _]].
  rewrite length_map; apply Nat.eqb_refl.
Qed.

Lemma length_np_identity (p : nat) : length (np_identity p) = p.
Proof. unfold np_identity; rewrite length_map, length_seq; reflexivity. Qed.

Lemma nth_row_np_identity (p i : nat) :
  (i < p)%nat ->
  nth i (np_identity p) []
  = map (fun j => if (i =? j)%nat then Fin 1 else Fin 0) (seq 0 p).
Proof. intros Hi; unfold np_identity; rewrite nth_map_seq0 by exact Hi; reflexivity. Qed.

Lemma nth_np_identity (p i j : nat) :
  (i < p)%nat -> (j < p)%nat ->
  nth j (nth i (np_identity p) []) NaN = if (i =? j)%nat then Fin 1 else Fin 0.
Proof.
  intros Hi Hj; rewrite nth_row_np_identity by exact Hi.
  rewrite nth_map_seq0 by exact Hj; reflexivity.
Qed.

Lemma row_lengths_XtX_identity (X : DataFrame) (i : nat) :
  length (nth i (XtX X) [])
  = length (nth i (np_identity (length (columns X))) []).
Proof.
  destruct (Nat.lt_ge_cases i (length (columns X))) as [Hi|Hi].
  - rewrite (nth_row_XtX X i (EmptyString, []) Hi), nth_row_np_identity by exact Hi.
    rewrite !length_map, length_seq; reflexivity.
  - rewrite !nth_overflow;
      [reflexivity | rewrite length_np_identity; exact Hi | rewrite length_XtX; exact Hi].
Qed.

Lemma length_np_multiply (A B : matrix) :
  length A = length B -> length (np_multiply A B) = length A.
Proof.
  intros H; unfold np_multiply.
  rewrite length_map, length_combine, <- H; apply Nat.min_id.
Qed.

Lemma nth_row_np_multiply (A B : matrix) (i : nat) :
  length A = length B ->
  nth i (np_multiply A B) []
  = map (fun ab => vmul (fst ab) (snd ab)) (combine (nth i A []) (nth i B [])).
Proof.
  intros H; unfold np_multiply.
  pose (F := fun rs : list val * list val =>
               map (fun ab => vmul (fst ab) (snd ab)) (combine (fst rs) (snd rs))).
  assert (E : nth i (map F (combine A B)) [] = F (nth i (combine A B) ([], [])))
    by exact (map_nth F (combine A B) ([], []) i).
  fold F; rewrite E, combine_nth by exact H; reflexivity.
Qed.

Lemma nth_np_multiply (A B : matrix) (i j : nat) :
  length A = length B ->
  length (nth i A []) = length (nth i B []) ->
  nth j (nth i (np_multiply A B) []) NaN
  = vmul (nth j (nth i A []) NaN) (nth j (nth i B []) NaN).
Proof.
  intros H Hrow; rewrite nth_row_np_multiply by exact H.
  pose (f := fun ab : val * val => vmul (fst ab) (snd ab)).
  assert (E : nth j (map f (combine (nth i A []) (nth i B []))) NaN
              = f (nth j (combine (nth i A []) (nth i B [])) (NaN, NaN)))
    by exact (map_nth f (combine (nth i A []) (nth i B [])) (NaN, NaN) j).
  fold f; rewrite E, combine_nth by exact Hrow; reflexivity.
Qed.

Section DiagonalShape.

Variable X : DataFrame.

Local Abbreviation p := (length (columns X)).

Lemma length_diag_XtX : length (diag_XtX X) = p.
Proof.
  unfold diag_XtX; rewrite length_np_multiply;
    [apply length_XtX | rewrite length_XtX, length_np_identity; reflexivity].
Qed.

Lemma nth_diag_XtX (i j : nat) (d : column) :
  (i < p)%nat -> (j < p)%nat ->
  nth j (nth i (diag_XtX X) []) NaN
  = vmul (vdot (snd (nth i (columns X) d)) (snd (nth j (columns X) d)))
         (if (i =? j)%nat then Fin 1 else Fin 0).
Proof.
  intros Hi Hj; unfold diag_XtX.
  rewrite nth_np_multiply.
  - rewrite (nth_XtX X i j d Hi Hj), nth_np_identity by assumption; reflexivity.
  - rewrite length_XtX, length_np_identity; reflexivity.
  - apply row_lengths_XtX_identity.
Qed.

Lemma length_row_diag_XtX (i : nat) :
  (i < p)%nat -> length (nth i (diag_XtX X) []) = p.
Proof.
  intros Hi; unfold diag_XtX.
  rewrite nth_row_np_multiply
    by (rewrite length_XtX, length_np_identity; reflexivity).
  rewrite length_map, length_combine, <- row_lengths_XtX_identity, Nat.min_id.
  rewrite (nth_row_XtX X i (EmptyString, []) Hi), !length_map; reflexivity.
Qed.

Lemma is_square_diag_XtX : is_square (diag_XtX X) = true.
Proof.
  unfold is_square; apply forallb_forall; intros r Hr.
  destruct (In_nth _ _ [] Hr) as [i [Hi <-]].
  rewrite length_diag_XtX in *.
  rewrite length_row_diag_XtX by exact Hi; apply Nat.eqb_refl.
Qed.

End DiagonalShape.


Lemma all_finite_entry (M : matrix) (i j : nat) :
  (i < length M)%nat -> (j < length (nth i M []))%nat ->
  all_finite M = true -> is_finite (nth j (nth i M []) NaN) = true.
Proof.
  unfold all_finite; intros Hi Hj H.
  rewrite forallb_forall in H; specialize (H (nth i M []) (nth_In _ _ Hi)).
  rewrite forallb_forall in H; apply H, nth_In, Hj.
Qed.

(** ** NaN, infinities and zero through the arithmetic *)

Lemma vadd_NaN_r (a : val) : vadd a NaN = NaN.
Proof. destruct a; reflexivity. Qed.

Lemma fold_left_vadd_NaN (l : list val) : fold_left vadd l NaN = NaN.
Proof. induction l as [|a t IH]; [reflexivity | exact IH]. Qed.

Lemma fold_left_vadd_has_NaN (l : list val) :
  In NaN l -> forall acc, fold_left vadd l acc = NaN.
Proof.
  induction l as [|a t IH]; [intros []|].
  intros [->|H] acc; cbn [fold_left].
  - rewrite vadd_NaN_r; apply fold_left_vadd_NaN.
  - apply IH, H.
Qed.

Lemma vsum_has_NaN (l : list val) : In NaN l -> vsum l = NaN.
Proof. intros H; apply fold_left_vadd_has_NaN, H. Qed.

Lemma products_NaN (c : list val) :
  forall c', In NaN c -> length c = length c' ->
             In NaN (map (fun p => vmul (fst p) (snd p)) (combine c c')).
Proof.
  induction c as [|x t IH]; intros c' Hin Hlen; [destruct Hin|].
  destruct c' as [|y t']; [discriminate|].
  injection Hlen as Hlen; cbn [combine map fst snd].
  destruct Hin as [->|Hin]; [left; reflexivity | right; apply IH; assumption].
Qed.

Lemma vdot_NaN (c : list val) :
  forall c', In NaN c -> length c = length c' -> vdot c c' = NaN.
Proof. intros c' Hin Hlen; apply vsum_has_NaN, products_NaN; assumption. Qed.

Lemma scale_column_NaN (n : nat) (col : list val) :
  In NaN col -> In NaN (scale_column n col).
Proof.
  intros H; unfold scale_column; cbv zeta.
  apply in_map_iff; exists NaN; split; [reflexivity | exact H].
Qed.


Lemma all_finite_row (M : matrix) (r : list val) :
  all_finite M = true -> In r M -> ~ In NaN r.
Proof.
  unfold all_finite; intros H Hr Hn.
  rewrite forallb_forall in H; specialize (H r Hr).
  rewrite forallb_forall in H; specialize (H NaN Hn); discriminate.
Qed.

Lemma vdiv_by_zero (a : val) : is_finite (vdiv a (Fin 0)) = false.
Proof.
  destruct a as [x|s|]; cbn [vdiv]; [|reflexivity|reflexivity].
  rewrite Reqb_refl; destruct (Reqb x 0); reflexivity.
Qed.

Lemma vmul_Fin_inv (u v : val) (z : R) :
  vmul u v = Fin z -> exists a b, u = Fin a /\ v = Fin b.
Proof.
  destruct u as [a|s|], v as [b|t|]; cbn [vmul]; intros H; try discriminate.
  - exists a, b; split; reflexivity.
  - destruct (Reqb a 0); discriminate.
  - destruct (Reqb b 0); discriminate.
Qed.

Lemma std_Fin_count (col : list val) (b : R) :
  std col = Fin b -> (2 <= length (dropna col))%nat.
Proof.
  unfold std; cbv zeta.
  destruct (length (dropna col) <=? 1)%nat eqn:E; [discriminate|].
  intros _; apply Nat.leb_gt in E; lia.
Qed.

Lemma plus_inf_or_NaN_not_finite (a : val) :
  plus_inf_or_NaN a -> is_finite a = false.
Proof. intros [->| ->]; reflexivity. Qed.

Lemma vmul_self_not_finite (x : val) :
  is_finite x = false -> plus_inf_or_NaN (vmul x x).
Proof.
  destruct x as [r|s|]; cbn [is_finite vmul]; intros H;
    [discriminate| |right; reflexivity].
  left; destruct s; reflexivity.
Qed.

Lemma vmul_one_not_finite (a : val) :
  plus_inf_or_NaN a -> is_finite (vmul a (Fin 1)) = false.
Proof.
  intros [->| ->]; cbn [vmul]; [|reflexivity].
  destruct (Reqb 1 0); reflexivity.
Qed.

Lemma vadd_plus_inf_or_NaN (a b : val) :
  is_finite a = true \/ plus_inf_or_NaN a ->
  plus_inf_or_NaN b -> plus_inf_or_NaN (vadd a b).
Proof.
  intros Ha [->| ->]; [|right; apply vadd_NaN_r].
  destruct a as [x|s|]; [left; reflexivity| |right; reflexivity].
  destruct Ha as [Ha|[Ha|Ha]]; [discriminate| |discriminate].
  injection Ha as ->; left; reflexivity.
Qed.

Lemma fold_left_plus_inf_or_NaN (l : list val) :
  Forall plus_inf_or_NaN l ->
  forall acc, plus_inf_or_NaN acc -> plus_inf_or_NaN (fold_left vadd l acc).
Proof.
  induction 1 as [|a t Ha _ IH]; intros acc Hacc; cbn [fold_left]; [exact Hacc|].
  apply IH, vadd_plus_inf_or_NaN; [right; exact Hacc | exact Ha].
Qed.

Lemma vsum_plus_inf_or_NaN (l : list val) :
  l <> [] -> Forall plus_inf_or_NaN l -> plus_inf_or_NaN (vsum l).
Proof.
  destruct l as [|a t]; [congruence|]; intros _ H.
  inversion H as [|a' t' Ha Ht]; subst.
  unfold vsum; cbn [fold_left].
  apply fold_left_plus_inf_or_NaN; [exact Ht|].
  apply vadd_plus_inf_or_NaN; [left; reflexivity | exact Ha].
Qed.

Lemma combine_same {A : Type} (l : list A) :
  combine l l = map (fun x => (x, x)) l.
Proof. induction l as [|a t IH]; [reflexivity | simpl; f_equal; exact IH]. Qed.

(** The sum of squares of a column without a finite entry is not finite. *)
Lemma vdot_self_not_finite (c : list val) :
  c <> [] -> Forall (fun v => is_finite v = false) c ->
  plus_inf_or_NaN (vdot c c).
Proof.
  intros Hne Hc; unfold vdot; rewrite combine_same, map_map; cbn [fst snd].
  apply vsum_plus_inf_or_NaN.
  - destruct c; [congruence | discriminate].
  - apply Forall_map.
    eapply Forall_impl; [|exact Hc].
    intros x Hx; apply vmul_self_not_finite, Hx.
Qed.

Lemma vadd_zero_or_NaN (a b : val) :
  fin_add nu 0 0 = Fin 0 ->
  zero_or_NaN a -> zero_or_NaN b -> zero_or_NaN (vadd a b).
Proof.
  intros H0 [->| ->] [->| ->]; cbn [vadd];
    [left; exact H0 | right; reflexivity | right; reflexivity | right; reflexivity].
Qed.

Lemma vsum_zero_or_NaN (l : list val) :
  fin_add nu 0 0 = Fin 0 -> Forall zero_or_NaN l -> zero_or_NaN (vsum l).
Proof.
  intros H0 Hl; unfold vsum.
  assert (G : forall acc, zero_or_NaN acc -> zero_or_NaN (fold_left vadd l acc)).
  { induction Hl as [|a t Ha _ IH]; intros acc Hacc; cbn [fold_left]; [exact Hacc|].
    apply IH, vadd_zero_or_NaN; assumption. }
  apply G; left; reflexivity.
Qed.

Lemma vmul_zero_l (y : val) :
  (forall x, fin_mul nu 0 x = Fin 0) -> zero_or_NaN (vmul (Fin 0) y).
Proof.
  intros H; destruct y as [b|s|]; cbn [vmul].
  - left; apply H.
  - rewrite Reqb_refl; right; reflexivity.
  - right; reflexivity.
Qed.

Lemma vmul_zero_r (z : val) :
  (forall x, fin_mul nu 0 x = Fin 0) ->
  zero_or_NaN z -> zero_or_NaN (vmul z (Fin 0)).
Proof.
  intros H [->| ->]; cbn [vmul]; [left; apply H | right; reflexivity].
Qed.

(** A quadratic form on a square matrix of the order of the vector raises
    nothing. *)
Lemma quadratic_form_OK (c : list val) (M : matrix) :
  square_of (length c) M ->
  exists q, (left <- vec_matmul c M ;; vec_dot left c) = OK q.
Proof.
  intros [HM Hrows]; unfold vec_matmul.
  rewrite HM, Nat.eqb_refl; cbn [bind]; unfold vec_dot.
  assert (Hw : width M = length c).
  { destruct M as [|r M']; [exact HM|].
    inversion Hrows as [|r' M'' Hr _]; exact Hr. }
  rewrite length_map, length_seq, Hw, Nat.eqb_refl.
  eexists; reflexivity.
Qed.

Section ZeroVector.

Hypothesis mul_0 : forall x, fin_mul nu 0 x = Fin 0.
Hypothesis add_0 : fin_add nu 0 0 = Fin 0.

Lemma vdot_zero_l (c : list val) :
  Forall (fun v => v = Fin 0) c -> forall v, zero_or_NaN (vdot c v).
Proof.
  intros Hc v; unfold vdot; apply (vsum_zero_or_NaN _ add_0).
  revert v; induction Hc as [|a t Ha _ IH]; intros [|y v]; cbn [combine map];
    try constructor.
  - cbn [fst snd]; rewrite Ha; apply vmul_zero_l, mul_0.
  - apply IH.
Qed.

Lemma vdot_zero_r (c : list val) :
  Forall (fun v => v = Fin 0) c ->
  forall u, Forall zero_or_NaN u -> zero_or_NaN (vdot u c).
Proof.
  intros Hc u Hu; unfold vdot; apply (vsum_zero_or_NaN _ add_0).
  revert c Hc; induction Hu as [|z t Hz _ IH]; intros c Hc; [constructor|].
  destruct Hc as [|a c Ha Hc]; cbn [combine map]; constructor.
  - cbn [fst snd]; rewrite Ha; apply vmul_zero_r; [exact mul_0 | exact Hz].
  - apply IH, Hc.
Qed.

Lemma vdiv_zero_or_NaN (a b : val) :
  zero_or_NaN a -> zero_or_NaN b -> vdiv a b = NaN.
Proof.
  intros [->| ->] [->| ->]; cbn [vdiv]; try reflexivity.
  rewrite !Reqb_refl; reflexivity.
Qed.

(** Both quadratic forms of a vector of zeros, on a square matrix of the
    order of the vector. *)
Lemma quadratic_form_zero (c : list val) (M : matrix) :
  Forall (fun v => v = Fin 0) c -> square_of (length c) M ->
  exists q, (left <- vec_matmul c M ;; vec_dot left c) = OK q /\ zero_or_NaN q.
Proof.
  intros Hc [HM Hrows]; unfold vec_matmul.
  rewrite HM, Nat.eqb_refl; cbn [bind]; unfold vec_dot.
  assert (Hw : width M = length c).
  { destruct M as [|r M']; [exact HM|].
    inversion Hrows as [|r' M'' Hr _]; exact Hr. }
  rewrite length_map, length_seq, Hw, Nat.eqb_refl.
  eexists; split; [reflexivity|].
  apply vdot_zero_r; [exact Hc|].
  apply Forall_map, Forall_forall; intros j _; apply vdot_zero_l, Hc.
Qed.

End ZeroVector.

(** ** Where an exception of the loop body comes from *)

Lemma vec_matmul_Raise (c : list val) (M : matrix) (e : exn) :
  vec_matmul c M = Raise e -> e = ValueError.
Proof.
  unfold vec_matmul; destruct (length c =? length M)%nat; [discriminate|].
  intros H; injection H as <-; reflexivity.
Qed.

Lemma vec_dot_Raise (u v : list val) (e : exn) :
  vec_dot u v = Raise e -> e = ValueError.
Proof.
  unfold vec_dot; destruct (length u =? length v)%nat; [discriminate|].
  intros H; injection H as <-; reflexivity.
Qed.

Section LoopBody.

Variable builder : string -> list string -> result (list val).
Variable lapack : matrix -> result matrix.

Local Abbreviation est := (est_contrast_vifs builder lapack).
Local Abbreviation vif := (contrast_vif builder lapack).
Local Abbreviation inv := (np_linalg_inv lapack).

Lemma contrast_vif_Raise (X : DataFrame) (expr : string) (e : exn) :
  vif X expr = Raise e ->
  builder expr (column_names X) = Raise e \/
  inv (XtX X) = Raise e \/ inv (diag_XtX X) = Raise e \/ e = ValueError.
Proof.
  unfold contrast_vif; intros H.
  destruct (builder expr (column_names X)) as [c|e1]; cbn [bind] in H;
    [|left; injection H as ->; reflexivity].
  right.
  destruct (inv (XtX X)) as [iG|e1]; cbn [bind] in H; [|left; injection H as ->; reflexivity].
  right.
  destruct (vec_matmul c iG) as [t|e1] eqn:E1; cbn [bind] in H;
    [|right; injection H as <-; exact (vec_matmul_Raise _ _ _ E1)].
  destruct (vec_dot t c) as [tv|e1] eqn:E2; cbn [bind] in H;
    [|right; injection H as <-; exact (vec_dot_Raise _ _ _ E2)].
  destruct (inv (diag_XtX X)) as [iD|e1]; cbn [bind] in H; [|left; injection H as ->; reflexivity].
  right.
  destruct (vec_matmul c iD) as [b|e1] eqn:E3; cbn [bind] in H;
    [|injection H as <-; exact (vec_matmul_Raise _ _ _ E3)].
  destruct (vec_dot b c) as [bv|e1] eqn:E4; cbn [bind] in H;
    [discriminate | injection H as <-; exact (vec_dot_Raise _ _ _ E4)].
Qed.

Lemma contrast_vif_OK (X : DataFrame) (expr : string) (c : list val)
      (iG iD : matrix) :
  builder expr (column_names X) = OK c ->
  inv (XtX X) = OK iG -> square_of (length c) iG ->
  inv (diag_XtX X) = OK iD -> square_of (length c) iD ->
  exists v, vif X expr = OK v.
Proof.
  intros Hb HG SG HD SD.
  destruct (quadratic_form_OK c iG SG) as [tv Et].
  destruct (quadratic_form_OK c iD SD) as [bv Eb].
  unfold contrast_vif.
  rewrite Hb; cbn [bind]; rewrite HG; cbn [bind].
  destruct (vec_matmul c iG) as [lt|e1]; cbn [bind] in Et |- *; [|discriminate].
  rewrite Et; cbn [bind]; rewrite HD; cbn [bind].
  destruct (vec_matmul c iD) as [lb|e1]; cbn [bind] in Eb |- *; [|discriminate].
  rewrite Eb; cbn [bind]; eexists; reflexivity.
Qed.

Lemma est_returns (desmat : DataFrame) (contrasts : dict string)
      (iG iD : matrix) :
  inv (XtX (desmat_copy desmat)) = OK iG ->
  square_of (length (columns (desmat_copy desmat))) iG ->
  inv (diag_XtX (desmat_copy desmat)) = OK iD ->
  square_of (length (columns (desmat_copy desmat))) iD ->
  (forall cname expr,
      In (cname, expr) contrasts ->
      exists c, builder expr (column_names (desmat_copy desmat)) = OK c /\
                length c = length (columns (desmat_copy desmat))) ->
  exists m, est desmat contrasts = OK m.
Proof.
  intros HG SG HD SD Hb.
  destruct (est desmat contrasts) as [m|e] eqn:E; [exists m; reflexivity|].
  exfalso; unfold est_contrast_vifs in E; apply loop_Raise in E.
  destruct E as [pre [cname [expr [post [-> [Hx _]]]]]].
  destruct (Hb cname expr) as [c [Hc Hl]];
    [apply in_or_app; right; left; reflexivity|].
  rewrite <- Hl in SG, SD.
  destruct (contrast_vif_OK _ _ _ _ _ Hc HG SG HD SD) as [v Hv].
  rewrite Hv in Hx; discriminate.
Qed.

Lemma loop_OK_each (X : DataFrame) (items : dict string) :
  forall acc m,
    contrasts_loop builder lapack X items acc = OK m ->
    Forall (fun item => exists v, vif X (snd item) = OK v) items.
Proof.
  induction items as [|[cname expr] rest IH]; intros acc m H; [constructor|].
  cbn [contrasts_loop] in H.
  destruct (vif X expr) as [v|e] eqn:Ev; cbn [bind] in H; [|discriminate].
  constructor; [exists v; exact Ev | exact (IH _ _ H)].
Qed.

Lemma vif_OK_parts (X : DataFrame) (expr : string) (v : val) :
  vif X expr = OK v ->
  (exists c, builder expr (column_names X) = OK c) /\
  (exists iG, inv (XtX X) = OK iG) /\ (exists iD, inv (diag_XtX X) = OK iD).
Proof.
  unfold contrast_vif; intros H.
  destruct (builder expr (column_names X)) as [c|e]; cbn [bind] in H; [|discriminate].
  destruct (inv (XtX X)) as [iG|e]; cbn [bind] in H; [|discriminate].
  destruct (vec_matmul c iG) as [t|e]; cbn [bind] in H; [|discriminate].
  destruct (vec_dot t c) as [tv|e]; cbn [bind] in H; [|discriminate].
  destruct (inv (diag_XtX X)) as [iD|e]; cbn [bind] in H; [|discriminate].
  split; [exists c; reflexivity|split; [exists iG|exists iD]; reflexivity].
Qed.


(** X18.  A call returns a mapping when both inversions succeed with
    matrices of the order of the standardized matrix and the builder answers
    every expression with a vector of that length, whatever the numbers are;
    and a mapping returned for at least one contrast means that every
    expression was built and both inversions succeeded. *)
Theorem X18_a_call_returns_when_its_parts_do
        (desmat : DataFrame) (contrasts : dict string) :
  (forall iG iD,
      np_linalg_inv lapack (XtX (desmat_copy desmat)) = OK iG ->
      square_of (length (columns (desmat_copy desmat))) iG ->
      np_linalg_inv lapack (diag_XtX (desmat_copy desmat)) = OK iD ->
      square_of (length (columns (desmat_copy desmat))) iD ->
      (forall cname expr,
          In (cname, expr) contrasts ->
          exists c, builder expr (column_names (desmat_copy desmat)) = OK c /\
                    length c = length (columns (desmat_copy desmat))) ->
      exists m, est desmat contrasts = OK m) /\
  (forall m,
      est desmat contrasts = OK m -> contrasts <> [] ->
      (forall cname expr,
          In (cname, expr) contrasts ->
          exists c, builder expr (column_names (desmat_copy desmat)) = OK c) /\
      (exists iG, np_linalg_inv lapack (XtX (desmat_copy desmat)) = OK iG) /\
      (exists iD, np_linalg_inv lapack (diag_XtX (desmat_copy desmat)) = OK iD)).
Proof.
  split; [intros iG iD; apply est_returns|].
  intros m H Hne; unfold est_contrast_vifs in H.
  apply loop_OK_each in H; rewrite Forall_forall in H.
  split.
  - intros cname expr Hin.
    destruct (H _ Hin) as [v Hv]; cbn [snd] in Hv.
    exact (proj1 (vif_OK_parts _ _ _ Hv)).
  - destruct contrasts as [|[cname expr] rest]; [congruence|].
    destruct (H _ (or_introl eq_refl)) as [v Hv]; cbn [snd] in Hv.
    exact (proj2 (vif_OK_parts _ _ _ Hv)).
Qed.

Lemma inv_length (M N : matrix) :
  (all_finite M = false -> forall N', lapack M = OK N' -> length N' = length M) ->
  inv M = OK N -> length N = length M.
Proof.
  unfold np_linalg_inv; intros HL.
  destruct (is_square M); cbn [negb]; [|discriminate].
  destruct (all_finite M); cbn [negb]; [|apply HL; reflexivity].
  destruct M as [|r M']; [intros H; injection H as <-; reflexivity|].
  destruct (fin_inv nu (map (map to_R) (r :: M'))) as [entry|]; [|discriminate].
  intros H; injection H as <-.
  unfold tabulate; rewrite length_map, length_seq; reflexivity.
Qed.

(** On a matrix of finite numbers the inversion answers with a matrix of
    the order of its argument. *)
Lemma inv_finite_square_of (M N : matrix) :
  all_finite M = true -> inv M = OK N -> square_of (length M) N.
Proof.
  unfold np_linalg_inv; intros HF.
  destruct (is_square M); cbn [negb]; [|discriminate].
  rewrite HF; cbn [negb].
  destruct M as [|r M'].
  - intros H; injection H as <-; split; [reflexivity | constructor].
  - destruct (fin_inv nu (map (map to_R) (r :: M'))) as [entry|]; [|discriminate].
    intros H; injection H as <-.
    unfold tabulate; split; [rewrite length_map, length_seq; reflexivity|].
    apply Forall_map, Forall_forall; intros i _.
    rewrite length_map, length_seq; reflexivity.
Qed.

(** X9.  A contrast vector whose length differs from the number of retained
    regressors never gets a value: the inversion answers with a matrix of
    the order of its argument, so the call raises [ValueError] from the
    first matrix product, or the exception of the first inversion when that
    one fails.  (On a matrix of finite numbers the order of the answer is
    part of the model; on a matrix holding NaN or an infinity it is the
    hypothesis on the routine.) *)
Theorem X9_wrong_length_contrast_vector
        (desmat : DataFrame) (name expr : string)
        (rest : dict string) (c : list val) :
  builder expr (column_names (desmat_copy desmat)) = OK c ->
  length c <> length (columns (desmat_copy desmat)) ->
  (all_finite (XtX (desmat_copy desmat)) = false ->
   forall N, lapack (XtX (desmat_copy desmat)) = OK N ->
             length N = length (XtX (desmat_copy desmat))) ->
  est desmat ((name, expr) :: rest)
  = match np_linalg_inv lapack (XtX (desmat_copy desmat)) with
    | OK _ => Raise ValueError
    | Raise e => Raise e
    end.
Proof.
  intros Hb Hlen HL.
  unfold est_contrast_vifs; cbn [contrasts_loop]; unfold contrast_vif.
  rewrite Hb; cbn [bind].
  destruct (np_linalg_inv lapack (XtX (desmat_copy desmat))) as [iG|e] eqn:E;
    cbn [bind]; [|reflexivity].
  apply (inv_length _ _ HL) in E.
  unfold vec_matmul; rewrite E, length_XtX.
  destruct (Nat.eqb_spec (length c) (length (columns (desmat_copy desmat))));
    [contradiction | reflexivity].
Qed.

(** X10.  A contrast vector of zeros (an expression such as "A - A") gets
    NaN and raises nothing, when both inversions succeed with matrices of
    the order of the vector: each quadratic form is a sum of products with
    zero, which is zero or NaN, and the quotient of two such cells is NaN.
    The arithmetic is asked for 0 * x = 0 and 0 + 0 = 0 on finite numbers
    only. *)
Theorem X10_zero_contrast_vector_gives_NaN
        (desmat : DataFrame) (name expr : string)
        (c : list val) (iG iD : matrix) :
  (forall x, fin_mul nu 0 x = Fin 0) ->
  fin_add nu 0 0 = Fin 0 ->
  builder expr (column_names (desmat_copy desmat)) = OK c ->
  Forall (fun v => v = Fin 0) c ->
  np_linalg_inv lapack (XtX (desmat_copy desmat)) = OK iG ->
  square_of (length c) iG ->
  np_linalg_inv lapack (diag_XtX (desmat_copy desmat)) = OK iD ->
  square_of (length c) iD ->
  est desmat [(name, expr)] = OK [(name, NaN)].
Proof.
  intros M0 A0 Hb Hz HG SG HD SD.
  destruct (quadratic_form_zero M0 A0 c iG Hz SG) as [tv [Et Zt]].
  destruct (quadratic_form_zero M0 A0 c iD Hz SD) as [bv [Eb Zb]].
  unfold est_contrast_vifs; cbn [contrasts_loop]; unfold contrast_vif.
  rewrite Hb; cbn [bind]; rewrite HG; cbn [bind].
  destruct (vec_matmul c iG) as [lt|e1]; cbn [bind] in Et |- *; [|discriminate].
  rewrite Et; cbn [bind]; rewrite HD; cbn [bind].
  destruct (vec_matmul c iD) as [lb|e1]; cbn [bind] in Eb |- *; [|discriminate].
  rewrite Eb; cbn [bind dict_set].
  rewrite (vdiv_zero_or_NaN tv bv Zt Zb); reflexivity.
Qed.

End LoopBody.

(** ** A missing entry in a retained regressor *)

Section MissingEntry.

Variable lapack : matrix -> result matrix.

(** X11.  A missing entry in a retained regressor makes NaN of every entry
    in that regressor's row of the cross-product matrix, so the first
    inversion is no longer the inversion of a matrix of numbers: what the
    call returns is what the inversion routine makes of a matrix holding
    NaN. *)
Theorem X11_missing_entry_reaches_the_inversion
        (desmat : DataFrame) (name : string) (col : list val) :
  wf desmat ->
  In (name, col) (columns (loc_columns desmat)) ->
  has_missing col ->
  In (map (fun _ => NaN) (columns (desmat_copy desmat)))
     (XtX (desmat_copy desmat)) /\
  all_finite (XtX (desmat_copy desmat)) = false /\
  np_linalg_inv lapack (XtX (desmat_copy desmat))
  = lapack (XtX (desmat_copy desmat)).
Proof.
  intros W Hin Hmiss.
  pose proof (wf_desmat_copy desmat W) as W'.
  set (X := desmat_copy desmat) in *.
  set (c := scale_column (nrows desmat) col).
  assert (HcX : In (name, c) (columns X)).
  { unfold X, desmat_copy, scale; cbn [columns nrows].
    apply in_map_iff; exists (name, col); split; [reflexivity | exact Hin]. }
  assert (Hnan : In NaN c) by (apply scale_column_NaN, Hmiss).
  assert (Hrow : In (map (fun _ => NaN) (columns X)) (XtX X)).
  { unfold XtX; cbv zeta.
    apply in_map_iff; exists c; split; [|apply (in_map snd _ _ HcX)].
    rewrite map_map; apply map_ext_in; intros cj Hcj.
    apply vdot_NaN; [exact Hnan|].
    unfold wf in W'; rewrite Forall_forall in W'.
    rewrite (W' _ HcX : length c = nrows X), (W' _ Hcj); reflexivity. }
  assert (Hfin : all_finite (XtX X) = false).
  { destruct (all_finite (XtX X)) eqn:E; [|reflexivity].
    exfalso; apply (all_finite_row _ _ E Hrow).
    apply in_map_iff; exists (name, c); split; [reflexivity | exact HcX]. }
  split; [exact Hrow|split; [exact Hfin|]].
  unfold np_linalg_inv; rewrite is_square_XtX, Hfin; reflexivity.
Qed.

End MissingEntry.

(** ** The diagonal matrix of the best case *)

Lemma In_nth_column (X : DataFrame) (c : column) :
  In c (columns X) ->
  exists i, (i < length (columns X))%nat /\ nth i (columns X) (EmptyString, []) = c.
Proof. intros H; exact (In_nth _ _ _ H). Qed.

Lemma diag_entry_self (X : DataFrame) (c : column) :
  In c (columns X) ->
  exists i, (i < length (columns X))%nat /\
            nth i (nth i (diag_XtX X) []) NaN = vmul (vdot (snd c) (snd c)) (Fin 1).
Proof.
  intros H; destruct (In_nth_column X c H) as [i [Hi E]].
  exists i; split; [exact Hi|].
  rewrite (nth_diag_XtX X i i (EmptyString, []) Hi Hi), E, Nat.eqb_refl; reflexivity.
Qed.


Lemma diag_not_identity (X : DataFrame) (c : column) :
  In c (columns X) -> plus_inf_or_NaN (vdot (snd c) (snd c)) ->
  all_finite (diag_XtX X) = false /\
  diag_XtX X <> np_identity (length (columns X)).
Proof.
  intros Hc Hv.
  destruct (diag_entry_self X c Hc) as [i [Hi E]].
  pose proof (vmul_one_not_finite _ Hv) as Hn; rewrite <- E in Hn.
  assert (HF : all_finite (diag_XtX X) = false).
  { destruct (all_finite (diag_XtX X)) eqn:EF; [|reflexivity].
    rewrite (all_finite_entry (diag_XtX X) i i) in Hn; [discriminate| | |exact EF].
    - rewrite length_diag_XtX; exact Hi.
    - rewrite length_row_diag_XtX by exact Hi; exact Hi. }
  split; [exact HF|].
  intros HD; rewrite HD, nth_np_identity, Nat.eqb_refl in Hn by exact Hi.
  discriminate.
Qed.


(** ** A retained column with a zero divisor *)

Section ZeroDivisor.

Variable builder : string -> list string -> result (list val).
Variable lapack : matrix -> result matrix.

Local Abbreviation est := (est_contrast_vifs builder lapack).
Local Abbreviation inv := (np_linalg_inv lapack).

(** C4 (amended).  The function holds no check for a zero divisor.  For a
    retained column whose divisor is zero, preprocessing completes and
    leaves no finite number in that column of the standardized matrix
    (every entry is NaN or an infinity); the column is not empty, so its
    diagonal entry of the cross-product matrix is not finite, neither in G
    nor in D, and both inversions are what the inversion routine makes of a
    matrix holding NaN or an infinity.  The call returns the empty mapping
    on an empty contrasts mapping; an exception it raises is the builder's,
    the inversion routine's, or the [ValueError] of a shape mismatch; and
    it returns a mapping, raising nothing, whenever the routine answers both
    matrices with matrices of their order and the builder answers every
    expression with a vector of the right length. *)
Theorem C4_zero_divisor_raises_nothing_of_its_own
        (desmat : DataFrame) (name : string) (col : list val) :
  In (name, col) (columns (loc_columns desmat)) ->
  vmul (sqrt_nsamp_minus_1 (nrows desmat)) (std col) = Fin 0 ->
  In (name, scale_column (nrows desmat) col) (columns (desmat_copy desmat)) /\
  scale_column (nrows desmat) col <> [] /\
  Forall (fun v => is_finite v = false) (scale_column (nrows desmat) col) /\
  all_finite (XtX (desmat_copy desmat)) = false /\
  all_finite (diag_XtX (desmat_copy desmat)) = false /\
  inv (XtX (desmat_copy desmat)) = lapack (XtX (desmat_copy desmat)) /\
  inv (diag_XtX (desmat_copy desmat)) = lapack (diag_XtX (desmat_copy desmat)) /\
  est desmat [] = OK [] /\
  (forall contrasts e,
      est desmat contrasts = Raise e ->
      (exists cname expr,
          In (cname, expr) contrasts /\
          builder expr (column_names (desmat_copy desmat)) = Raise e) \/
      lapack (XtX (desmat_copy desmat)) = Raise e \/
      lapack (diag_XtX (desmat_copy desmat)) = Raise e \/
      e = ValueError) /\
  (forall contrasts iG iD,
      lapack (XtX (desmat_copy desmat)) = OK iG ->
      square_of (length (columns (desmat_copy desmat))) iG ->
      lapack (diag_XtX (desmat_copy desmat)) = OK iD ->
      square_of (length (columns (desmat_copy desmat))) iD ->
      (forall cname expr,
          In (cname, expr) contrasts ->
          exists c, builder expr (column_names (desmat_copy desmat)) = OK c /\
                    length c = length (columns (desmat_copy desmat))) ->
      exists m, est desmat contrasts = OK m).
Proof.
  intros Hin Hz.
  set (X := desmat_copy desmat).
  set (c := scale_column (nrows desmat) col).
  assert (HcX : In (name, c) (columns X)) by (apply scaled_column_In, Hin).
  assert (Hne : c <> []).
  { destruct (vmul_Fin_inv _ _ _ Hz) as [a [b [_ Hs]]].
    apply std_Fin_count in Hs.
    intros E; apply (f_equal (@length val)) in E.
    unfold c in E; rewrite length_scale_column in E.
    destruct col as [|x t]; [simpl in Hs; lia | discriminate]. }
  assert (Hnf : Forall (fun v => is_finite v = false) c).
  { unfold c, scale_column; cbv zeta; rewrite Hz.
    apply Forall_map, Forall_forall; intros x _; apply vdiv_by_zero. }
  pose proof (vdot_self_not_finite c Hne Hnf) as Hv.
  assert (HG : all_finite (XtX X) = false).
  { destruct (all_finite (XtX X)) eqn:E; [|reflexivity].
    destruct (In_nth_column X _ HcX) as [i [Hi Ei]].
    pose proof (all_finite_entry (XtX X) i i) as F.
    rewrite (nth_XtX X i i (EmptyString, []) Hi Hi), Ei in F; cbn [snd] in F.
    rewrite (plus_inf_or_NaN_not_finite _ Hv) in F.
    symmetry; apply F; [rewrite length_XtX; exact Hi| |exact E].
    rewrite (nth_row_XtX X i (EmptyString, []) Hi), !length_map; exact Hi. }
  destruct (diag_not_identity X _ HcX Hv) as [HD _].
  assert (IG : inv (XtX X) = lapack (XtX X))
    by (unfold np_linalg_inv; rewrite is_square_XtX, HG; reflexivity).
  assert (ID : inv (diag_XtX X) = lapack (diag_XtX X))
    by (unfold np_linalg_inv; rewrite is_square_diag_XtX, HD; reflexivity).
  repeat (split; [assumption|]).
  split; [reflexivity|split].
  - intros contrasts e He.
    unfold est_contrast_vifs in He; apply loop_Raise in He.
    destruct He as [pre [cname [expr [post [-> [Hx _]]]]]].
    apply contrast_vif_Raise in Hx; fold X in Hx; rewrite IG, ID in Hx.
    destruct Hx as [Hx|Hx]; [left|right; exact Hx].
    exists cname, expr; split; [apply in_or_app; right; left; reflexivity | exact Hx].
  - intros contrasts iG iD EG SG ED SD Hb.
    rewrite <- IG in EG; rewrite <- ID in ED.
    exact (est_returns builder lapack desmat contrasts iG iD EG SG ED SD Hb).
Qed.

End ZeroDivisor.

End Float64.

(** * The arithmetic without rounding

    With [ideal] the operations on columns of finite values reduce to the
    quantities on lists of reals.  Nothing here is about float64: these
    lemmas serve to evaluate the statements above on the concrete design
    matrices. *)

Lemma vdiv_Fin (x y : R) : y <> 0 -> vdiv ideal (Fin x) (Fin y) = Fin (x / y).
Proof. intros H; cbn [vdiv]; rewrite Reqb_neq by exact H; reflexivity. Qed.

Lemma vsub_Fin (x y : R) : vsub ideal (Fin x) (Fin y) = Fin (x - y).
Proof. reflexivity. Qed.

Lemma vsqrt_Fin (x : R) : 0 <= x -> vsqrt ideal (Fin x) = Fin (sqrt x).
Proof. intros H; cbn [vsqrt]; rewrite Rltb_ge by exact H; reflexivity. Qed.

Lemma fold_left_vadd_Fin (l : list R) :
  forall a, fold_left (vadd ideal) (map Fin l) (Fin a) = Fin (a + Rsum l).
Proof.
  induction l as [|x t IH]; intros a; cbn [map fold_left Rsum fold_right].
  - f_equal; ring.
  - change (vadd ideal (Fin a) (Fin x)) with (Fin (a + x)).
    rewrite IH; f_equal; unfold Rsum; ring.
Qed.

Lemma vsum_Fin (l : list R) : vsum ideal (map Fin l) = Fin (Rsum l).
Proof. unfold vsum; rewrite fold_left_vadd_Fin; f_equal; ring. Qed.

Lemma dropna_Fin (l : list R) : dropna (map Fin l) = map Fin l.
Proof.
  induction l as [|x t IH]; [reflexivity|].
  cbn [map]; unfold dropna in *; cbn [filter isnull negb]; rewrite IH; reflexivity.
Qed.

Lemma products_Fin (u : list R) :
  forall v, map (fun p => vmul ideal (fst p) (snd p)) (combine (map Fin u) (map Fin v))
            = map Fin (map (fun p => fst p * snd p) (combine u v)).
Proof.
  induction u as [|x u IH]; intros [|y v]; try reflexivity.
  cbn [map combine fst snd]; rewrite IH; reflexivity.
Qed.

Lemma vdot_Fin (u v : list R) :
  vdot ideal (map Fin u) (map Fin v) = Fin (Rdot u v).
Proof. unfold vdot; rewrite products_Fin, vsum_Fin; reflexivity. Qed.

Lemma Rdot_comm (u v : list R) : Rdot u v = Rdot v u.
Proof.
  revert v; induction u as [|x u IH]; intros [|y v]; try reflexivity.
  unfold Rdot in *; simpl; rewrite (IH v); ring.
Qed.

Lemma INR_pos (n : nat) : (1 <= n)%nat -> 0 < INR n.
Proof. intros H; apply lt_0_INR; lia. Qed.

Lemma INR_pred (n : nat) : (1 <= n)%nat -> INR (n - 1) = INR n - 1.
Proof. intros H; rewrite minus_INR by exact H; simpl; reflexivity. Qed.

Lemma mean_Fin (l : list R) :
  l <> [] -> mean ideal (map Fin l) = Fin (Rmean l).
Proof.
  intros Hl; unfold mean; cbv zeta.
  rewrite dropna_Fin, vsum_Fin, length_map, vdiv_Fin; [reflexivity|].
  apply Rgt_not_eq, INR_pos.
  destruct l; [congruence | simpl; lia].
Qed.

Lemma Rsum_sq_nonneg (f : R -> R) (l : list R) :
  0 <= Rsum (map (fun x => f x * f x) l).
Proof.
  induction l as [|x t IH]; simpl; [lra|].
  pose proof (Rle_0_sqr (f x)) as H; unfold Rsqr in H; lra.
Qed.

Lemma Rssd_nonneg (l : list R) : 0 <= Rssd l.
Proof. apply (Rsum_sq_nonneg (fun x => Rmean l - x)). Qed.

Lemma std_Fin (l : list R) :
  (2 <= length l)%nat ->
  std ideal (map Fin l) = Fin (sqrt (Rssd l / INR (length l - 1))).
Proof.
  intros Hl; unfold std.
  rewrite dropna_Fin, length_map.
  destruct (length l <=? 1)%nat eqn:E; [apply Nat.leb_le in E; lia|].
  cbv zeta.
  rewrite vsum_Fin, vdiv_Fin by (apply Rgt_not_eq, INR_pos; lia).
  rewrite map_map.
  rewrite (map_ext _ (fun x => Fin ((Rmean l - x) * (Rmean l - x))))
    by (intros x; reflexivity).
  rewrite <- (map_map (fun x => (Rmean l - x) * (Rmean l - x)) Fin), vsum_Fin.
  fold (Rssd l).
  assert (Hn : 0 < INR (length l - 1)) by (apply INR_pos; lia).
  rewrite vdiv_Fin by lra.
  rewrite vsqrt_Fin; [reflexivity|].
  apply Rmult_le_pos; [apply Rssd_nonneg|].
  left; apply Rinv_0_lt_compat; exact Hn.
Qed.

Lemma Rdivisor_sq (l : list R) :
  (2 <= length l)%nat ->
  Rdivisor (length l) l * Rdivisor (length l) l = Rssd l.
Proof.
  intros Hl; unfold Rdivisor.
  assert (Hn : 0 < INR (length l) - 1).
  { rewrite <- INR_pred by lia; apply INR_pos; lia. }
  rewrite INR_pred by lia.
  pose proof (Rssd_nonneg l) as Hs.
  assert (Hq : 0 <= Rssd l / (INR (length l) - 1)).
  { apply Rmult_le_pos; [exact Hs | left; apply Rinv_0_lt_compat; exact Hn]. }
  transitivity ((sqrt (INR (length l) - 1) * sqrt (INR (length l) - 1)) *
                (sqrt (Rssd l / (INR (length l) - 1)) *
                 sqrt (Rssd l / (INR (length l) - 1)))); [ring|].
  rewrite !sqrt_sqrt by lra.
  field; lra.
Qed.

Lemma Rdivisor_neq_0 (l : list R) :
  (2 <= length l)%nat -> 0 < Rssd l -> Rdivisor (length l) l <> 0.
Proof.
  intros Hl Hs Hd.
  pose proof (Rdivisor_sq l Hl) as H; rewrite Hd in H; lra.
Qed.

Lemma sqrt_nsamp_minus_1_Fin (n : nat) :
  (1 <= n)%nat -> sqrt_nsamp_minus_1 ideal n = Fin (sqrt (INR n - 1)).
Proof.
  intros Hn; unfold sqrt_nsamp_minus_1.
  rewrite Rltb_ge; [reflexivity|].
  rewrite <- INR_pred by exact Hn; apply pos_INR.
Qed.

Lemma scale_column_Fin (l : list R) :
  (2 <= length l)%nat -> 0 < Rssd l ->
  scale_column ideal (length l) (map Fin l) = map Fin (Rscaled (length l) l).
Proof.
  intros Hl Hs; unfold scale_column, Rscaled; cbv zeta.
  rewrite mean_Fin by (destruct l; [simpl in Hl; lia | discriminate]).
  rewrite std_Fin by exact Hl.
  rewrite sqrt_nsamp_minus_1_Fin by lia.
  change (vmul ideal (Fin (sqrt (INR (length l) - 1)))
               (Fin (sqrt (Rssd l / INR (length l - 1)))))
    with (Fin (Rdivisor (length l) l)).
  rewrite !map_map; apply map_ext; intros x.
  rewrite vsub_Fin, vdiv_Fin; [reflexivity|].
  apply Rdivisor_neq_0; assumption.
Qed.

Lemma Rsum_sq_scale (m k : R) (l : list R) :
  Rsum (map (fun x => ((x - m) * k) * ((x - m) * k)) l)
  = Rsum (map (fun x => (m - x) * (m - x)) l) * (k * k).
Proof.
  induction l as [|x t IH]; [simpl; ring|].
  cbn [map Rsum fold_right].
  fold (Rsum (map (fun x => ((x - m) * k) * ((x - m) * k)) t)).
  fold (Rsum (map (fun x => (m - x) * (m - x)) t)).
  rewrite IH; ring.
Qed.

Lemma Rdot_map_self (f : R -> R) (l : list R) :
  Rdot (map f l) (map f l) = Rsum (map (fun x => f x * f x) l).
Proof.
  induction l as [|x t IH]; [reflexivity|].
  unfold Rdot in *; cbn [map combine Rsum fold_right fst snd].
  f_equal; exact IH.
Qed.

(** Without rounding a standardized column has sum of squares 1. *)
Lemma Rscaled_unit (l : list R) :
  (2 <= length l)%nat -> 0 < Rssd l ->
  Rdot (Rscaled (length l) l) (Rscaled (length l) l) = 1.
Proof.
  intros Hl Hs; unfold Rscaled.
  rewrite (Rdot_map_self (fun x => (x - Rmean l) / Rdivisor (length l) l)).
  unfold Rdiv; rewrite Rsum_sq_scale; fold (Rssd l).
  pose proof (Rdivisor_sq l Hl) as Hd.
  pose proof (Rdivisor_neq_0 l Hl Hs) as Hz.
  rewrite <- Hd; field; exact Hz.
Qed.

(** ** Matrices of order 2 *)

Lemma det_2 (a b c d : R) : det 2 [[a; b]; [c; d]] = a * d - b * c.
Proof. unfold det, sign; simpl; ring. Qed.

Section Inverse.

Variable lapack : matrix -> result matrix.

Lemma inv_2x2 (a b c d : R) :
  a * d - b * c <> 0 ->
  np_linalg_inv ideal lapack [[Fin a; Fin b]; [Fin c; Fin d]]
  = OK [[Fin (d / (a * d - b * c)); Fin (- b / (a * d - b * c))];
        [Fin (- c / (a * d - b * c)); Fin (a / (a * d - b * c))]].
Proof.
  intros H; unfold np_linalg_inv.
  cbn [is_square all_finite forallb length Nat.eqb is_finite negb andb map to_R
       fin_inv ideal].
  unfold exact_inv; cbn [length]; cbv zeta.
  rewrite det_2, Reqb_neq by exact H.
  unfold tabulate, cofactor, remove_nth; simpl; unfold sign; simpl.
  cells; field; exact H.
Qed.

Lemma inv_2x2_singular (a b c d : R) :
  a * d - b * c = 0 ->
  np_linalg_inv ideal lapack [[Fin a; Fin b]; [Fin c; Fin d]] = Raise LinAlgError.
Proof.
  intros H; unfold np_linalg_inv.
  cbn [is_square all_finite forallb length Nat.eqb is_finite negb andb map to_R
       fin_inv ideal].
  unfold exact_inv; cbn [length]; cbv zeta.
  rewrite det_2, H, Reqb_refl; reflexivity.
Qed.

End Inverse.

Lemma vec_matmul_2 (c0 c1 m00 m01 m10 m11 : R) :
  vec_matmul ideal [Fin c0; Fin c1] [[Fin m00; Fin m01]; [Fin m10; Fin m11]]
  = OK [Fin (c0 * m00 + c1 * m10); Fin (c0 * m01 + c1 * m11)].
Proof. unfold vec_matmul, vdot, vsum; simpl; cells; ring. Qed.

Lemma vec_dot_2 (x y c0 c1 : R) :
  vec_dot ideal [Fin x; Fin y] [Fin c0; Fin c1] = OK (Fin (x * c0 + y * c1)).
Proof. unfold vec_dot, vdot, vsum; simpl; cells; ring. Qed.

Lemma XtX_two_columns (X : DataFrame) (na nb : string) (a b : list R) :
  columns X = [(na, map Fin a); (nb, map Fin b)] ->
  XtX ideal X = [[Fin (Rdot a a); Fin (Rdot a b)]; [Fin (Rdot b a); Fin (Rdot b b)]] /\
  diag_XtX ideal X = [[Fin (Rdot a a * 1); Fin (Rdot a b * 0)];
                      [Fin (Rdot b a * 0); Fin (Rdot b b * 1)]].
Proof.
  intros H; unfold diag_XtX, XtX; rewrite H.
  cbn [map snd length]; rewrite !vdot_Fin; split; reflexivity.
Qed.

Section TwoColumns.

Variable builder : string -> list string -> result (list val).
Variable lapack : matrix -> result matrix.

(** The loop body, without rounding, on two columns of sum of squares 1
    with cross product [r] and a contrast vector (c0, c1). *)
Lemma contrast_vif_two_columns (X : DataFrame) (na nb expr : string)
      (a b : list R) (r c0 c1 : R) :
  columns X = [(na, map Fin a); (nb, map Fin b)] ->
  Rdot a a = 1 -> Rdot b b = 1 -> Rdot a b = r ->
  builder expr [na; nb] = OK [Fin c0; Fin c1] ->
  (r * r <> 1 -> c0 * c0 + c1 * c1 <> 0 ->
   contrast_vif ideal builder lapack X expr
   = OK (Fin ((c0 * c0 - 2 * r * c0 * c1 + c1 * c1) / (1 - r * r)
              / (c0 * c0 + c1 * c1)))) /\
  (r * r = 1 ->
   contrast_vif ideal builder lapack X expr = Raise LinAlgError).
Proof.
  intros HX Ha Hb Hr Hc.
  destruct (XtX_two_columns X _ _ a b HX) as [HG HD].
  rewrite (Rdot_comm b a), Ha, Hb, Hr in HG, HD.
  assert (Hn : column_names X = [na; nb])
    by (unfold column_names; rewrite HX; reflexivity).
  unfold contrast_vif; rewrite Hn, Hc, HG, HD; cbn [bind]; split.
  - intros Hrr Hcc.
    rewrite inv_2x2 by lra; cbn [bind].
    rewrite vec_matmul_2; cbn [bind]; rewrite vec_dot_2; cbn [bind].
    rewrite inv_2x2 by lra; cbn [bind].
    rewrite vec_matmul_2; cbn [bind]; rewrite vec_dot_2; cbn [bind].
    assert (H1 : 1 - r * r <> 0) by lra.
    rewrite vdiv_Fin.
    + cells; field; repeat split; lra.
    + intros E; apply Hcc; field_simplify in E; lra.
  - intros Hrr; rewrite inv_2x2_singular by lra; reflexivity.
Qed.

End TwoColumns.

(** * The concrete design matrices, evaluated without rounding *)

Lemma wf_desmat_half : wf desmat_half.
Proof. repeat constructor. Qed.

Lemma keep_colA : keep_mask (map Fin colA) = true.
Proof.
  apply keep_mask_iff; left; exists (Fin (-1)), (Fin 0); simpl.
  repeat split; auto; try discriminate.
  intros H; injection H; lra.
Qed.

Lemma keep_colB : keep_mask (map Fin colB) = true.
Proof.
  apply keep_mask_iff; left; exists (Fin 0), (Fin (-1)); simpl.
  repeat split; auto; try discriminate.
  intros H; injection H; lra.
Qed.

Lemma Rmean_colA : Rmean colA = 0.
Proof. unfold Rmean, colA; simpl; field. Qed.

Lemma Rmean_colB : Rmean colB = 0.
Proof. unfold Rmean, colB; simpl; field. Qed.

Lemma Rssd_colA : Rssd colA = 2.
Proof. unfold Rssd; rewrite Rmean_colA; unfold colA; simpl; ring. Qed.

Lemma Rssd_colB : Rssd colB = 2.
Proof. unfold Rssd; rewrite Rmean_colB; unfold colB; simpl; ring. Qed.

Lemma Rdivisor_colB : Rdivisor 3 colB = Rdivisor 3 colA.
Proof. unfold Rdivisor; rewrite Rssd_colA, Rssd_colB; reflexivity. Qed.

Lemma Rdivisor_colA_sq : Rdivisor 3 colA * Rdivisor 3 colA = 2.
Proof.
  rewrite <- Rssd_colA.
  apply (Rdivisor_sq colA); simpl; lia.
Qed.

Lemma loc_columns_half : loc_columns desmat_half = desmat_half.
Proof.
  unfold loc_columns, desmat_half; cbn [columns nrows filter snd].
  rewrite keep_colA, keep_colB; reflexivity.
Qed.

Lemma desmat_copy_half :
  columns (desmat_copy ideal desmat_half)
  = [("A"%string, map Fin (Rscaled 3 colA)); ("B"%string, map Fin (Rscaled 3 colB))].
Proof.
  unfold desmat_copy; rewrite loc_columns_half.
  unfold scale, desmat_half; cbn [columns nrows map fst snd].
  assert (HA : scale_column ideal 3 (map Fin colA) = map Fin (Rscaled 3 colA)).
  { apply (scale_column_Fin colA); [simpl; lia | rewrite Rssd_colA; lra]. }
  assert (HB : scale_column ideal 3 (map Fin colB) = map Fin (Rscaled 3 colB)).
  { apply (scale_column_Fin colB); [simpl; lia | rewrite Rssd_colB; lra]. }
  rewrite HA, HB; reflexivity.
Qed.

Lemma names_half :
  column_names (desmat_copy ideal desmat_half) = ["A"%string; "B"%string].
Proof. unfold column_names; rewrite desmat_copy_half; reflexivity. Qed.

Lemma Rdot_half : Rdot (Rscaled 3 colA) (Rscaled 3 colB) = 1 / 2.
Proof.
  unfold Rscaled; rewrite Rmean_colA, Rmean_colB, Rdivisor_colB.
  pose proof Rdivisor_colA_sq as Hd.
  set (d := Rdivisor 3 colA) in *.
  assert (d <> 0) by (intros E; rewrite E in Hd; lra).
  unfold Rdot, colA, colB; simpl.
  transitivity (1 / (d * d)); [field; assumption | rewrite Hd; reflexivity].
Qed.

Lemma Rdot_colA_unit : Rdot (Rscaled 3 colA) (Rscaled 3 colA) = 1.
Proof. apply (Rscaled_unit colA); [simpl; lia | rewrite Rssd_colA; lra]. Qed.

Lemma Rdot_colB_unit : Rdot (Rscaled 3 colB) (Rscaled 3 colB) = 1.
Proof. apply (Rscaled_unit colB); [simpl; lia | rewrite Rssd_colB; lra]. Qed.

Lemma XtX_half :
  XtX ideal (desmat_copy ideal desmat_half)
  = [[Fin 1; Fin (1 / 2)]; [Fin (1 / 2); Fin 1]] /\
  diag_XtX ideal (desmat_copy ideal desmat_half)
  = [[Fin (1 * 1); Fin (1 / 2 * 0)]; [Fin (1 / 2 * 0); Fin (1 * 1)]].
Proof.
  destruct (XtX_two_columns _ _ _ _ _ desmat_copy_half) as [HG HD].
  rewrite HG, HD, (Rdot_comm (Rscaled 3 colB)), Rdot_half.
  rewrite Rdot_colA_unit, Rdot_colB_unit; split; reflexivity.
Qed.

Lemma inverses_half (lapack : matrix -> result matrix) :
  np_linalg_inv ideal lapack (XtX ideal (desmat_copy ideal desmat_half))
  = OK [[Fin (1 / (1 * 1 - 1 / 2 * (1 / 2))); Fin (- (1 / 2) / (1 * 1 - 1 / 2 * (1 / 2)))];
        [Fin (- (1 / 2) / (1 * 1 - 1 / 2 * (1 / 2))); Fin (1 / (1 * 1 - 1 / 2 * (1 / 2)))]] /\
  exists iD,
    np_linalg_inv ideal lapack (diag_XtX ideal (desmat_copy ideal desmat_half)) = OK iD /\
    square_of 2 iD.
Proof.
  destruct XtX_half as [-> ->]; split.
  - apply inv_2x2; lra.
  - eexists; split; [apply inv_2x2; lra|].
    split; [reflexivity | repeat constructor].
Qed.

Lemma NoDup_contrasts_C2_C1 : NoDup (keys contrasts_C2_C1).
Proof.
  repeat constructor; simpl; intuition discriminate.
Qed.

Lemma est_half_C2_C1 :
  est_contrast_vifs ideal demo_builder demo_nonfinite desmat_half contrasts_C2_C1
  = OK [("C2"%string, Fin 2); ("C1"%string, Fin (4 / 3))].
Proof.
  pose proof desmat_copy_half as HX.
  pose proof Rdot_colA_unit as Ha.
  pose proof Rdot_colB_unit as Hb.
  unfold est_contrast_vifs, contrasts_C2_C1; cbn [contrasts_loop].
  destruct (contrast_vif_two_columns demo_builder demo_nonfinite _ "A" "B" "A - B"
              _ _ (1 / 2) 1 (-1) HX Ha Hb Rdot_half eq_refl) as [H1 _].
  destruct (contrast_vif_two_columns demo_builder demo_nonfinite _ "A" "B" "A"
              _ _ (1 / 2) 1 0 HX Ha Hb Rdot_half eq_refl) as [H2 _].
  rewrite H1 by lra; cbn [bind dict_set].
  rewrite H2 by lra; cbn [bind dict_set]; simpl String.eqb; cbn iota.
  cells; field.
Qed.

Lemma desmat_copy_collinear :
  columns (desmat_copy ideal desmat_collinear)
  = [("A"%string, map Fin (Rscaled 3 colA)); ("B"%string, map Fin (Rscaled 3 colA))].
Proof.
  unfold desmat_copy, loc_columns, desmat_collinear; cbn [columns nrows filter snd].
  rewrite keep_colA.
  unfold scale; cbn [columns nrows map fst snd].
  assert (HA : scale_column ideal 3 (map Fin colA) = map Fin (Rscaled 3 colA)).
  { apply (scale_column_Fin colA); [simpl; lia | rewrite Rssd_colA; lra]. }
  rewrite HA; reflexivity.
Qed.

Lemma inv_collinear (lapack : matrix -> result matrix) :
  np_linalg_inv ideal lapack (XtX ideal (desmat_copy ideal desmat_collinear))
  = Raise LinAlgError.
Proof.
  destruct (XtX_two_columns _ _ _ _ _ desmat_copy_collinear) as [HG _].
  rewrite HG, Rdot_colA_unit; apply inv_2x2_singular; ring.
Qed.

Lemma wf_desmat_missing : wf desmat_missing.
Proof. repeat constructor. Qed.

Lemma keep_missing : keep_mask [Fin 0; Fin 2; NaN] = true.
Proof. apply keep_mask_iff; right; unfold has_missing; simpl; auto. Qed.

Lemma retained_missing :
  In ("A"%string, [Fin 0; Fin 2; NaN]) (columns (loc_columns desmat_missing)).
Proof.
  unfold loc_columns, desmat_missing; cbn [columns nrows filter snd].
  rewrite keep_missing; left; reflexivity.
Qed.


Lemma keep_const_missing : keep_mask [Fin 1; Fin 1; NaN] = true.
Proof. apply keep_mask_iff; right; unfold has_missing; simpl; auto. Qed.

Lemma retained_const_missing :
  In ("A"%string, [Fin 1; Fin 1; NaN]) (columns (loc_columns desmat_const_missing)).
Proof.
  unfold loc_columns, desmat_const_missing; cbn [columns nrows filter snd].
  rewrite keep_const_missing; left; reflexivity.
Qed.

Lemma Rssd_1_1 : Rssd [1; 1] = 0.
Proof.
  assert (E : Rmean [1; 1] = 1) by (unfold Rmean; simpl; field).
  unfold Rssd; rewrite E; simpl; ring.
Qed.

Lemma divisor_const_missing :
  vmul ideal (sqrt_nsamp_minus_1 ideal (nrows desmat_const_missing))
       (std ideal [Fin 1; Fin 1; NaN])
  = Fin 0.
Proof.
  change (std ideal [Fin 1; Fin 1; NaN]) with (std ideal (map Fin [1; 1])).
  rewrite std_Fin by (simpl; lia).
  rewrite sqrt_nsamp_minus_1_Fin by (simpl; lia).
  rewrite Rssd_1_1; cbn [vmul fin_mul ideal]; f_equal.
  replace (0 / INR (length [1; 1] - 1)) with 0 by (simpl; field).
  rewrite sqrt_0; ring.
Qed.

(** The column (1, 1, NaN) after the standardization: 0/0 twice, and the
    missing entry. *)
Lemma desmat_copy_const_missing :
  desmat_copy ideal desmat_const_missing = mkDF 3 [("A"%string, [NaN; NaN; NaN])].
Proof.
  unfold desmat_copy, loc_columns, desmat_const_missing; cbn [columns nrows filter snd].
  rewrite keep_const_missing.
  unfold scale, scale_column; cbn [columns nrows map fst snd].
  rewrite (divisor_const_missing : vmul ideal (sqrt_nsamp_minus_1 ideal 3) _ = Fin 0).
  change (mean ideal [Fin 1; Fin 1; NaN]) with (mean ideal (map Fin [1; 1])).
  rewrite mean_Fin by discriminate.
  assert (E : Rmean [1; 1] = 1) by (unfold Rmean; simpl; field).
  rewrite E, !vsub_Fin; cbn [vsub vadd vneg vdiv].
  replace (1 - 1) with 0 by ring.
  rewrite !Reqb_refl; reflexivity.
Qed.

Lemma constant_1_1 (x y : val) :
  In x [Fin 1; Fin 1] -> In y [Fin 1; Fin 1] -> x = y.
Proof. simpl; intuition congruence. Qed.

Lemma no_missing_1_1 : ~ has_missing [Fin 1; Fin 1].
Proof. unfold has_missing; simpl; intuition discriminate. Qed.

Lemma loc_columns_const : columns (loc_columns desmat_const) = [].
Proof.
  unfold loc_columns, desmat_const; cbn [columns nrows filter snd].
  rewrite (keep_mask_constant _ constant_1_1 no_missing_1_1); reflexivity.
Qed.

Lemma constant_7 (x y : val) :
  In x [Fin 7; Fin 7; Fin 7] -> In y [Fin 7; Fin 7; Fin 7] -> x = y.
Proof. simpl; intuition congruence. Qed.

Lemma no_missing_7 : ~ has_missing [Fin 7; Fin 7; Fin 7].
Proof. unfold has_missing; simpl; intuition discriminate. Qed.



Lemma ideal_0_mul (x : R) : fin_mul ideal 0 x = Fin 0.
Proof. cbn; f_equal; ring. Qed.

Lemma ideal_0_add_0 : fin_add ideal 0 0 = Fin 0.
Proof. cbn; f_equal; ring. Qed.

(** Without rounding the standardized columns of [desmat_half] have sum of
    squares 1. *)
Lemma unit_columns_half : unit_columns ideal (desmat_copy ideal desmat_half).
Proof.
  unfold unit_columns; rewrite desmat_copy_half; split.
  - intros c [<-|[<-|[]]]; cbn [snd]; rewrite vdot_Fin;
      [rewrite Rdot_colA_unit | rewrite Rdot_colB_unit]; reflexivity.
  - intros c c' [<-|[<-|[]]] [<-|[<-|[]]]; cbn [snd]; rewrite vdot_Fin; reflexivity.
Qed.





(** * The statements at concrete inputs *)



Lemma C3_witness :
  In ("A"%string, [Fin 1; Fin 1; NaN]) (columns (loc_columns desmat_const_missing)) /\
  ~ In ("K"%string, [Fin 1; Fin 1]) (columns (loc_columns desmat_const)).
Proof.
  split.
  - apply (proj1 (C3_retention_rule ideal desmat_const_missing)); split.
    + left; reflexivity.
    + right; unfold has_missing; simpl; auto.
  - apply (proj2 (proj2 (proj2 (C3_retention_rule ideal desmat_const)))).
    + left; reflexivity.
    + exact constant_1_1.
    + exact no_missing_1_1.
Defined.

Lemma C4_witness :
  In ("A"%string, scale_column ideal 3 [Fin 1; Fin 1; NaN])
     (columns (desmat_copy ideal desmat_const_missing)) /\
  scale_column ideal 3 [Fin 1; Fin 1; NaN] <> [] /\
  Forall (fun v => is_finite v = false) (scale_column ideal 3 [Fin 1; Fin 1; NaN]) /\
  all_finite (XtX ideal (desmat_copy ideal desmat_const_missing)) = false /\
  all_finite (diag_XtX ideal (desmat_copy ideal desmat_const_missing)) = false /\
  np_linalg_inv ideal demo_nonfinite (XtX ideal (desmat_copy ideal desmat_const_missing))
  = demo_nonfinite (XtX ideal (desmat_copy ideal desmat_const_missing)) /\
  np_linalg_inv ideal demo_nonfinite
                (diag_XtX ideal (desmat_copy ideal desmat_const_missing))
  = demo_nonfinite (diag_XtX ideal (desmat_copy ideal desmat_const_missing)) /\
  est_contrast_vifs ideal demo_builder demo_nonfinite desmat_const_missing [] = OK [] /\
  (forall contrasts e,
      est_contrast_vifs ideal demo_builder demo_nonfinite desmat_const_missing contrasts
      = Raise e ->
      (exists cname expr,
          In (cname, expr) contrasts /\
          demo_builder expr (column_names (desmat_copy ideal desmat_const_missing))
          = Raise e) \/
      demo_nonfinite (XtX ideal (desmat_copy ideal desmat_const_missing)) = Raise e \/
      demo_nonfinite (diag_XtX ideal (desmat_copy ideal desmat_const_missing))
      = Raise e \/
      e = ValueError) /\
  (forall contrasts iG iD,
      demo_nonfinite (XtX ideal (desmat_copy ideal desmat_const_missing)) = OK iG ->
      square_of (length (columns (desmat_copy ideal desmat_const_missing))) iG ->
      demo_nonfinite (diag_XtX ideal (desmat_copy ideal desmat_const_missing)) = OK iD ->
      square_of (length (columns (desmat_copy ideal desmat_const_missing))) iD ->
      (forall cname expr,
          In (cname, expr) contrasts ->
          exists c,
            demo_builder expr (column_names (desmat_copy ideal desmat_const_missing))
            = OK c /\
            length c = length (columns (desmat_copy ideal desmat_const_missing))) ->
      exists m,
        est_contrast_vifs ideal demo_builder demo_nonfinite desmat_const_missing contrasts
        = OK m).
Proof.
  exact (C4_zero_divisor_raises_nothing_of_its_own
           ideal demo_builder demo_nonfinite desmat_const_missing "A" _
           retained_const_missing divisor_const_missing).
Defined.

(** The claim C4 as stated fails: the column (1, 1, NaN) is retained, its
    divisor is zero, and the call raises nothing.  With no contrast it returns
    the empty mapping; with the contrast "A", and an inversion that
    propagates NaN ([demo_nonfinite]), it returns NaN. *)
Lemma C4_counterexample :
  wf desmat_const_missing /\
  In ("A"%string, [Fin 1; Fin 1; NaN]) (columns (loc_columns desmat_const_missing)) /\
  vmul ideal (sqrt_nsamp_minus_1 ideal (nrows desmat_const_missing))
       (std ideal [Fin 1; Fin 1; NaN])
  = Fin 0 /\
  est_contrast_vifs ideal demo_builder demo_nonfinite desmat_const_missing [] = OK [] /\
  est_contrast_vifs ideal demo_builder demo_nonfinite desmat_const_missing
                    [("C1"%string, "A"%string)]
  = OK [("C1"%string, NaN)].
Proof.
  split; [repeat constructor|].
  split; [exact retained_const_missing|].
  split; [exact divisor_const_missing|].
  split; [reflexivity|].
  unfold est_contrast_vifs; rewrite desmat_copy_const_missing; reflexivity.
Qed.

Lemma C5_witness :
  (exists m,
      est_contrast_vifs ideal demo_builder demo_nonfinite desmat_half contrasts_C2_C1
      = OK m /\
      keys m = keys contrasts_C2_C1 /\
      Forall2 (entry_of ideal demo_builder demo_nonfinite (desmat_copy ideal desmat_half))
              contrasts_C2_C1 m) \/
  (exists e,
      est_contrast_vifs ideal demo_builder demo_nonfinite desmat_half contrasts_C2_C1
      = Raise e /\
      exists pre name expr post,
        contrasts_C2_C1 = pre ++ (name, expr) :: post /\
        contrast_vif ideal demo_builder demo_nonfinite (desmat_copy ideal desmat_half) expr
        = Raise e /\
        Forall (fun item =>
                  exists v, contrast_vif ideal demo_builder demo_nonfinite
                                         (desmat_copy ideal desmat_half) (snd item)
                            = OK v)
               pre).
Proof.
  exact (C5_full_mapping_or_exception
           ideal demo_builder demo_nonfinite desmat_half contrasts_C2_C1
           NoDup_contrasts_C2_C1).
Defined.

Lemma C6_witness :
  keys [("C2"%string, Fin 2); ("C1"%string, Fin (4 / 3))] = ["C2"%string; "C1"%string] /\
  (forall desmat' m',
      est_contrast_vifs ideal demo_builder demo_nonfinite desmat' contrasts_C2_C1
      = OK m' ->
      keys m' = keys [("C2"%string, Fin 2); ("C1"%string, Fin (4 / 3))]).
Proof.
  exact (C6_order_preserved
           ideal demo_builder demo_nonfinite desmat_half contrasts_C2_C1 _
           NoDup_contrasts_C2_C1 est_half_C2_C1).
Defined.

Lemma C7_witness :
  columns (desmat_copy ideal desmat_const) = [] /\
  XtX ideal (desmat_copy ideal desmat_const) = [] /\
  np_linalg_inv ideal demo_nonfinite (XtX ideal (desmat_copy ideal desmat_const))
  = OK [] /\
  est_contrast_vifs ideal zero_builder demo_nonfinite desmat_const [] = OK [] /\
  est_contrast_vifs ideal zero_builder demo_nonfinite desmat_const
                    [("C2"%string, "K - K"%string); ("C1"%string, "0 * K"%string)]
  = OK [("C2"%string, NaN); ("C1"%string, NaN)].
Proof.
  destruct (C7_no_column_is_not_an_error
              ideal zero_builder demo_nonfinite desmat_const
              [("C2"%string, "K - K"%string); ("C1"%string, "0 * K"%string)]
              loc_columns_const)
    as [H1 [H2 [H3 [H4 H5]]]].
  repeat split; try assumption.
  apply H5.
  - repeat constructor; simpl; intuition discriminate.
  - intros item _; reflexivity.
Defined.

(** The claim C7 as stated fails: the only column of [desmat_const] is
    dropped, and the call returns the empty mapping instead of failing. *)
Lemma C7_counterexample :
  columns (loc_columns desmat_const) = [] /\
  est_contrast_vifs ideal demo_builder demo_nonfinite desmat_const [] = OK [] /\
  ~ (exists e,
        est_contrast_vifs ideal demo_builder demo_nonfinite desmat_const [] = Raise e).
Proof.
  split; [exact loc_columns_const|].
  split; [reflexivity|].
  intros [e H]; discriminate.
Qed.

Lemma C8_witness :
  est_contrast_vifs ideal demo_builder demo_nonfinite
    (insert_column 1 ("K"%string, [Fin 7; Fin 7; Fin 7]) desmat_half)
    contrasts_C2_C1
  = OK [("C2"%string, Fin 2); ("C1"%string, Fin (4 / 3))].
Proof.
  apply (proj1 (C8_constant_column_invariance
                  ideal demo_builder demo_nonfinite desmat_half contrasts_C2_C1
                  1 "K" _ constant_7 no_missing_7)).
  exact est_half_C2_C1.
Defined.

Lemma C9_witness :
  spec_est_contrast_vifs_once ideal demo_builder demo_nonfinite desmat_half
                              contrasts_C2_C1
  = est_contrast_vifs ideal demo_builder demo_nonfinite desmat_half contrasts_C2_C1 /\
  spec_est_contrast_vifs_once ideal demo_builder demo_nonfinite desmat_half
                              contrasts_C2_C1
  = OK [("C2"%string, Fin 2); ("C1"%string, Fin (4 / 3))].
Proof.
  destruct (C9_once_and_reuse_agrees_when_invertible
              ideal demo_builder demo_nonfinite desmat_half contrasts_C2_C1)
    as [H1 [_ H3]].
  split.
  - apply H1.
    destruct (inverses_half demo_nonfinite) as [HG [iD [HD _]]].
    eexists; exists iD; split; [exact HG | exact HD].
  - apply H3; [discriminate | exact est_half_C2_C1].
Defined.

(** The claim C9 as stated fails on a singular design with no contrast: the
    once-and-reuse form inverts first and raises, the source never inverts
    and returns the empty mapping. *)
Lemma C9_counterexample :
  spec_est_contrast_vifs_once ideal demo_builder demo_nonfinite desmat_collinear []
  = Raise LinAlgError /\
  est_contrast_vifs ideal demo_builder demo_nonfinite desmat_collinear [] = OK [] /\
  spec_est_contrast_vifs_once ideal demo_builder demo_nonfinite desmat_collinear []
  <> est_contrast_vifs ideal demo_builder demo_nonfinite desmat_collinear [].
Proof.
  assert (H : spec_est_contrast_vifs_once ideal demo_builder demo_nonfinite
                                          desmat_collinear []
              = Raise LinAlgError).
  { unfold spec_est_contrast_vifs_once; cbv zeta.
    rewrite inv_collinear; reflexivity. }
  split; [exact H|split; [reflexivity|]].
  rewrite H; discriminate.
Qed.

Lemma X5_witness :
  (forall contrasts m,
      est_contrast_vifs ideal demo_builder demo_nonfinite desmat_collinear contrasts
      = OK m -> contrasts = [] /\ m = []) /\
  (forall name expr rest,
      est_contrast_vifs ideal demo_builder demo_nonfinite desmat_collinear
                        ((name, expr) :: rest)
      = match demo_builder expr (column_names (desmat_copy ideal desmat_collinear)) with
        | OK _ => Raise LinAlgError
        | Raise e' => Raise e'
        end).
Proof.
  exact (X5_singular_design_fails_at_first_contrast
           ideal demo_builder demo_nonfinite desmat_collinear LinAlgError
           (inv_collinear demo_nonfinite)).
Defined.

Lemma X6_witness :
  exists v,
    In ("C1"%string, v) [("C2"%string, Fin 2); ("C1"%string, Fin (4 / 3))] /\
    est_contrast_vifs ideal demo_builder demo_nonfinite desmat_half
                      [("C1"%string, "A"%string)]
    = OK [("C1"%string, v)].
Proof.
  apply (proj1 (X6_contrasts_are_independent
                  ideal demo_builder demo_nonfinite desmat_half contrasts_C2_C1
                  NoDup_contrasts_C2_C1)
               _ est_half_C2_C1).
  right; left; reflexivity.
Defined.

Lemma X9_witness :
  est_contrast_vifs ideal short_builder demo_nonfinite desmat_half
                    [("C1"%string, "A"%string)]
  = Raise ValueError.
Proof.
  rewrite (X9_wrong_length_contrast_vector
             ideal short_builder demo_nonfinite desmat_half
             "C1" "A" [] [Fin 1] eq_refl).
  - destruct (inverses_half demo_nonfinite) as [HG _].
    rewrite HG; reflexivity.
  - rewrite desmat_copy_half; simpl; lia.
  - intros _ N H; injection H as <-; apply length_map.
Defined.

Lemma X10_witness :
  est_contrast_vifs ideal zero_builder demo_nonfinite desmat_half
                    [("Z"%string, "A - A"%string)]
  = OK [("Z"%string, NaN)].
Proof.
  destruct (inverses_half demo_nonfinite) as [HG [iD [HD SD]]].
  eapply (X10_zero_contrast_vector_gives_NaN
            ideal zero_builder demo_nonfinite desmat_half "Z" "A - A"
            [Fin 0; Fin 0] _ iD ideal_0_mul ideal_0_add_0).
  - unfold zero_builder; rewrite names_half; reflexivity.
  - repeat constructor.
  - exact HG.
  - split; [reflexivity | repeat constructor].
  - exact HD.
  - exact SD.
Defined.

Lemma X11_witness :
  In (map (fun _ => NaN) (columns (desmat_copy ideal desmat_missing)))
     (XtX ideal (desmat_copy ideal desmat_missing)) /\
  all_finite (XtX ideal (desmat_copy ideal desmat_missing)) = false /\
  np_linalg_inv ideal demo_nonfinite (XtX ideal (desmat_copy ideal desmat_missing))
  = demo_nonfinite (XtX ideal (desmat_copy ideal desmat_missing)).
Proof.
  apply (X11_missing_entry_reaches_the_inversion
           ideal demo_nonfinite desmat_missing "A" [Fin 0; Fin 2; NaN]
           wf_desmat_missing retained_missing).
  unfold has_missing; simpl; auto.
Defined.


Lemma X18_witness :
  exists m,
    est_contrast_vifs ideal demo_builder demo_nonfinite desmat_half contrasts_C2_C1
    = OK m.
Proof.
  destruct (inverses_half demo_nonfinite) as [HG [iD [HD SD]]].
  eapply (proj1 (X18_a_call_returns_when_its_parts_do
                   ideal demo_builder demo_nonfinite desmat_half contrasts_C2_C1)
                _ iD).
  - exact HG.
  - rewrite desmat_copy_half; split; [reflexivity | repeat constructor].
  - exact HD.
  - rewrite desmat_copy_half; exact SD.
  - rewrite names_half, desmat_copy_half.
    intros cname expr [E|[E|[]]]; injection E as _ <-; eexists; split; reflexivity.
Defined.
